(** * lib/stuff.js: helper functions of the slot framework

    A shallow embedding of the module [stuff] (string formatting,
    capitalisation, removal of a value from an array, lookup by path and the
    query string helpers) together with the properties stated about it.

    JavaScript strings are sequences of UTF-16 code units; values are the
    plain data values (no functions, no accessors); an exception is an
    explicit outcome. What the module takes from the language and from its
    dependencies is modelled after their definitions: the string methods,
    [encodeURIComponent] and [decodeURIComponent], the order in which the
    properties of an object are enumerated, and the functions of lodash the
    module calls. The Unicode case mapping, the prototypes of the runtime
    and the module [querystring] are interfaces, each with an instance to
    compute with. *)

From Stdlib Require Import String Ascii Decimal.
From Stdlib Require Import ZArith List Bool Lia DecimalPos.
Import ListNotations.
Open Scope Z_scope.
#[local] Set Warnings "-register-all".

(** ** Strings *)

(** A string is the list of its UTF-16 code units, each in [0, 65536). *)
Definition jstr := list Z.

(** The string written in ASCII: one code unit for each character. *)
Definition js (s : string) : jstr :=
  map (fun a => Z.of_N (N_of_ascii a)) (list_ascii_of_string s).

Fixpoint jstr_eqb (a b : jstr) : bool :=
  match a, b with
  | [], [] => true
  | x :: a', y :: b' => (x =? y) && jstr_eqb a' b'
  | _, _ => false
  end.

(** The longest prefix whose elements satisfy [p], and the rest. *)
Fixpoint span {A : Type} (p : A -> bool) (l : list A) : list A * list A :=
  match l with
  | [] => ([], [])
  | x :: l' =>
      if p x then let (a, b) := span p l' in (x :: a, b) else ([], l)
  end.

(** [\d] of a regular expression: the ASCII digits. *)
Definition is_digit (c : Z) : bool := (48 <=? c) && (c <=? 57).

(** [parseInt(ds, 10)] on a run of digits. The result is kept exact; the
    double of the source differs from it only above 2^53, far beyond the
    length of any argument list the value is used to index. *)
Definition parseInt10 (ds : jstr) : Z :=
  fold_left (fun n c => 10 * n + (c - 48)) ds 0.

Fixpoint uint_digits (u : Decimal.uint) : jstr :=
  match u with
  | Nil => []
  | D0 u' => 48 :: uint_digits u'
  | D1 u' => 49 :: uint_digits u'
  | D2 u' => 50 :: uint_digits u'
  | D3 u' => 51 :: uint_digits u'
  | D4 u' => 52 :: uint_digits u'
  | D5 u' => 53 :: uint_digits u'
  | D6 u' => 54 :: uint_digits u'
  | D7 u' => 55 :: uint_digits u'
  | D8 u' => 56 :: uint_digits u'
  | D9 u' => 57 :: uint_digits u'
  end.

(** The decimal numeral of an integer, as [String(n)] prints it. *)
Definition Z_to_jstr (n : Z) : jstr :=
  match Z.to_int n with
  | Decimal.Pos u => uint_digits u
  | Decimal.Neg u => 45 :: uint_digits u
  end.

(** ** Values *)

(** The numbers of the embedding are the safe integers, those of magnitude
    below 2^53: a double holds each of them exactly and [String] prints it
    in plain decimal. The bound is part of the type, so no number of the
    embedding is printed in exponent notation by the code. *)
Record number : Type := {
  number_value : Z;
  number_safe : (Z.abs number_value <? 9007199254740992) = true
}.

(** The number of an integer, when it is a safe one. *)
Definition number_of (n : Z) : option number :=
  match Z.abs n <? 9007199254740992 as b
        return ((Z.abs n <? 9007199254740992) = b -> option number) with
  | true => fun H => Some {| number_value := n; number_safe := H |}
  | false => fun _ => None
  end eq_refl.

(** The data values of the embedding. An object is the list of its own
    enumerable properties in enumeration order. Functions and accessors
    are outside this universe; so is what a value inherits from its
    prototypes, see [Prototypes]. *)
Inductive value : Type :=
| VUndefined
| VNull
| VBool (b : bool)
| VNum (n : number)
| VStr (s : jstr)
| VArr (elems : list value)
| VObj (props : list (jstr * value)).

Definition obj := list (jstr * value).

(** [ToBoolean]. *)
Definition truthy (v : value) : bool :=
  match v with
  | VUndefined | VNull => false
  | VBool b => b
  | VNum n => negb (number_value n =? 0)
  | VStr s => match s with [] => false | _ => true end
  | VArr _ | VObj _ => true
  end.

(** [ToString]: an array prints its elements separated by commas, with
    nothing for [null] and [undefined]. *)
Fixpoint to_string (v : value) : jstr :=
  match v with
  | VUndefined => js "undefined"
  | VNull => js "null"
  | VBool true => js "true"
  | VBool false => js "false"
  | VNum n => Z_to_jstr (number_value n)
  | VStr s => s
  | VArr l =>
      let elem x :=
        match x with VUndefined | VNull => [] | _ => to_string x end in
      (fix join (l : list value) : jstr :=
         match l with
         | [] => []
         | [x] => elem x
         | x :: l' => elem x ++ 44 :: join l'
         end) l
  | VObj _ => js "[object Object]"
  end.

(** ** Outcomes *)

Inductive exn : Type := TypeError | URIError.

Inductive result (A : Type) : Type :=
| Ok (a : A)
| Throw (e : exn).
Arguments Ok {A} a.
Arguments Throw {A} e.

Definition bind {A B : Type} (m : result A) (f : A -> result B) : result B :=
  match m with
  | Ok a => f a
  | Throw e => Throw e
  end.

Notation "x <- m ;; k" := (bind m (fun x => k))
  (at level 61, m at next level, right associativity).

(** ** format *)

(** [values[num]] on the [arguments] object of the call. *)
Definition arg_lookup (values : list value) (num : Z) : value :=
  if num <? 0 then VUndefined else nth (Z.to_nat num) values VUndefined.

(** [str.replace(/%(\d+)/g, function(m, num) {...})]: at a [%] followed by
    digits the whole run of digits is taken and the token is replaced by the
    string of [values[num]]; every other character is copied. Each step
    consumes a character, so [length s] steps are enough. *)
Fixpoint replace_tokens (fuel : nat) (values : list value) (s : jstr) : jstr :=
  match fuel, s with
  | _, [] => []
  | O, _ => []
  | S fuel', c :: s' =>
      if c =? 37 then
        match span is_digit s' with
        | ([], _) => c :: replace_tokens fuel' values s'
        | (ds, rest) =>
            to_string (arg_lookup values (parseInt10 ds))
              ++ replace_tokens fuel' values rest
        end
      else c :: replace_tokens fuel' values s'
  end.

(** [format(str, ...)]: [extra] are the arguments after [str]. A receiver
    that is not a string has no [replace] method. *)
Definition format (str : value) (extra : list value) : result value :=
  match str with
  | VStr s =>
      let values := str :: extra in
      Ok (VStr (replace_tokens (length s) values s))
  | _ => Throw TypeError
  end.

(** ** capitalize *)

(** The case mapping of the Unicode tables behind [toUpperCase]; the only
    fact used about it is that the empty string has no character to map. *)
Class CaseMapping : Type := {
  toUpperCase : jstr -> jstr;
  toUpperCase_empty : toUpperCase [] = []
}.

(** [str.charAt(0)] and [str.slice(1)]. *)
Definition charAt0 (s : jstr) : jstr :=
  match s with [] => [] | c :: _ => [c] end.

Definition slice1 (s : jstr) : jstr :=
  match s with [] => [] | _ :: s' => s' end.

Definition capitalize `{CaseMapping} (str : value) : jstr :=
  let str :=
    match str with
    | VUndefined | VNull => []
    | _ => to_string str
    end in
  toUpperCase (charAt0 str) ++ slice1 str.

(** ** pop *)

Section Pop.

(** The elements of the array and the comparison [===] on them, which a
    number that is [NaN] does not satisfy, not even with itself. *)
Context {A : Type} (strict_equals : A -> A -> bool).

(** [indexOfNaN], from the right: the last element before [index] that is
    not equal to itself. *)
Fixpoint indexOfNaN_from (index : nat) (array : list A) : Z :=
  match index with
  | O => -1
  | S index' =>
      match nth_error array index' with
      | Some other =>
          if negb (strict_equals other other) then Z.of_nat index'
          else indexOfNaN_from index' array
      | None => indexOfNaN_from index' array
      end
  end.

(** The loop of [_.lastIndexOf]: [index] counts down from the length; -1
    when no element is found. *)
Fixpoint lastIndexOf_from (index : nat) (array : list A) (value : A) : Z :=
  match index with
  | O => -1
  | S index' =>
      match nth_error array index' with
      | Some x =>
          if strict_equals x value then Z.of_nat index'
          else lastIndexOf_from index' array value
      | None => lastIndexOf_from index' array value
      end
  end.

(** [_.lastIndexOf(array, value)]: a value that is not equal to itself
    ([value !== value], which holds of [NaN] only) is looked for as such,
    any other value with [===]. *)
Definition lastIndexOf (array : list A) (value : A) : Z :=
  if negb (strict_equals value value)
  then indexOfNaN_from (length array) array
  else lastIndexOf_from (length array) array value.

(** [array.splice(start, 1)] for a start within the array. *)
Definition splice1 (start : Z) (array : list A) : list A :=
  firstn (Z.to_nat start) array ++ skipn (S (Z.to_nat start)) array.

(** [pop(array, value)]: the result is the content of [array] after the
    call. *)
Definition pop (array : list A) (value : A) : list A :=
  let lastIndex := lastIndexOf array value in
  if negb (lastIndex =? -1) then splice1 lastIndex array else array.

End Pop.

(** ** Objects *)

Fixpoint get_own (k : jstr) (o : obj) : option value :=
  match o with
  | [] => None
  | (k', v) :: o' => if jstr_eqb k' k then Some v else get_own k o'
  end.

Definition has_own (k : jstr) (o : obj) : bool :=
  match get_own k o with Some _ => true | None => false end.

(** An array index is the canonical numeral of an integer below 2^32 - 1. *)
Definition array_index (k : jstr) : option Z :=
  match k with
  | [] => None
  | c :: rest =>
      if forallb is_digit k
         && (negb (c =? 48) || match rest with [] => true | _ => false end)
         && (parseInt10 k <=? 4294967294)
      then Some (parseInt10 k) else None
  end.

(** Properties are enumerated with the array indices first, in ascending
    order, and then the other names in the order of their creation. *)
Fixpoint insert_index (n : Z) (k : jstr) (v : value) (o : obj) : obj :=
  match o with
  | [] => [(k, v)]
  | (k', v') :: o' =>
      match array_index k' with
      | Some m =>
          if m <? n then (k', v') :: insert_index n k v o' else (k, v) :: o
      | None => (k, v) :: o
      end
  end.

Fixpoint replace_value (k : jstr) (v : value) (o : obj) : obj :=
  match o with
  | [] => []
  | (k', v') :: o' =>
      if jstr_eqb k' k then (k', v) :: o' else (k', v') :: replace_value k v o'
  end.

(** Definition of the own property [k]: an existing property keeps its
    place, a new one is created. *)
Definition obj_set (k : jstr) (v : value) (o : obj) : obj :=
  if has_own k o then replace_value k v o
  else
    match array_index k with
    | Some n => insert_index n k v o
    | None => o ++ [(k, v)]
    end.

(** [o[k] = v] on an ordinary object: the name [__proto__] is the accessor
    of [Object.prototype] and creates no own property. *)
Definition obj_assign (k : jstr) (v : value) (o : obj) : obj :=
  if jstr_eqb k (js "__proto__") then o else obj_set k v o.

(** [delete o[k]]. *)
Definition obj_delete (k : jstr) (o : obj) : obj :=
  filter (fun kv => negb (jstr_eqb (fst kv) k)) o.

(** The prototypes of the runtime: [inherited v k] tells whether the name
    [k], which [v] does not have as a property of its own, may be found in
    the prototype chain of [v]. What is found there ([toString],
    [constructor], [push], ...) is a function or an object of the runtime
    and no data value. *)
Class Prototypes : Type := {
  inherited : value -> jstr -> bool
}.

Definition listed (names : list jstr) (k : jstr) : bool :=
  existsb (jstr_eqb k) names.

(** The names that the editions of the language up to ECMAScript 2024, with
    their annex B, define on the standard prototypes, and the [__proto__]
    family of names that engines add to [Object.prototype]. A runtime has
    some or all of them. *)
Definition object_prototype : list jstr :=
  map js
    ["constructor"; "toString"; "toLocaleString"; "valueOf";
     "hasOwnProperty"; "isPrototypeOf"; "propertyIsEnumerable";
     "__proto__"; "__defineGetter__"; "__defineSetter__";
     "__lookupGetter__"; "__lookupSetter__"]%string.

Definition array_prototype : list jstr :=
  map js
    ["concat"; "join"; "pop"; "push"; "reverse"; "shift"; "slice"; "sort";
     "splice"; "unshift"; "indexOf"; "lastIndexOf"; "every"; "some";
     "forEach"; "map"; "filter"; "reduce"; "reduceRight";
     "copyWithin"; "entries"; "fill"; "find"; "findIndex"; "keys"; "values";
     "includes"; "flat"; "flatMap"; "at"; "findLast"; "findLastIndex";
     "toReversed"; "toSorted"; "toSpliced"; "with"]%string.

Definition string_prototype : list jstr :=
  map js
    ["charAt"; "charCodeAt"; "concat"; "indexOf"; "lastIndexOf";
     "localeCompare"; "match"; "replace"; "search"; "slice"; "split";
     "substring"; "toLowerCase"; "toLocaleLowerCase"; "toUpperCase";
     "toLocaleUpperCase"; "trim";
     "codePointAt"; "endsWith"; "includes"; "normalize"; "repeat";
     "startsWith"; "padEnd"; "padStart"; "trimEnd"; "trimStart"; "matchAll";
     "replaceAll"; "at"; "isWellFormed"; "toWellFormed";
     "substr"; "anchor"; "big"; "blink"; "bold"; "fixed"; "fontcolor";
     "fontsize"; "italics"; "link"; "small"; "strike"; "sub"; "sup";
     "trimLeft"; "trimRight"]%string.

Definition number_prototype : list jstr :=
  map js ["toFixed"; "toExponential"; "toPrecision"]%string.

(** A runtime with the standard prototypes and nothing added to them:
    objects inherit from [Object.prototype], and arrays, strings and numbers
    from their own prototype first. Every name listed above is taken as one
    that may be inherited, and no other name is. *)
Definition standard_inherited (v : value) (k : jstr) : bool :=
  match v with
  | VUndefined | VNull => false
  | VBool _ | VObj _ => listed object_prototype k
  | VNum _ => listed number_prototype k || listed object_prototype k
  | VStr _ => listed string_prototype k || listed object_prototype k
  | VArr _ => listed array_prototype k || listed object_prototype k
  end.

#[export] Instance standard_prototypes : Prototypes := {|
  inherited := standard_inherited
|}.

Section Lookup.

Context {prototypes : Prototypes}.

(** [v[k]] for a value [v] that is neither [null] nor [undefined]: the
    property of [v] itself when it has one (for an array or a string, an
    element or [length]); otherwise the prototype chain is followed, and
    there is no data value to give ([None]) when the name may be found
    there, [undefined] when it is not. No array or string of the code has a
    length that is not a safe integer; there is nothing to give for one
    either. *)
Definition get_prop (v : value) (k : jstr) : option value :=
  let from_prototypes :=
    if inherited v k then None else Some VUndefined in
  match v with
  | VObj props =>
      match get_own k props with
      | Some x => Some x
      | None => from_prototypes
      end
  | VArr l =>
      match array_index k with
      | Some i =>
          match nth_error l (Z.to_nat i) with
          | Some x => Some x
          | None => from_prototypes
          end
      | None =>
          if jstr_eqb k (js "length")
          then option_map VNum (number_of (Z.of_nat (length l)))
          else from_prototypes
      end
  | VStr s =>
      match array_index k with
      | Some i =>
          match nth_error s (Z.to_nat i) with
          | Some c => Some (VStr [c])
          | None => from_prototypes
          end
      | None =>
          if jstr_eqb k (js "length")
          then option_map VNum (number_of (Z.of_nat (length s)))
          else from_prototypes
      end
  | _ => from_prototypes
  end.

End Lookup.

(** ** split and join *)

(** [Some rest] when [s] is [p] followed by [rest]. *)
Fixpoint strip_prefix (p s : jstr) : option jstr :=
  match p, s with
  | [], _ => Some s
  | x :: p', y :: s' => if x =? y then strip_prefix p' s' else None
  | _ :: _, [] => None
  end.

(** Splitting at a separator that is not empty: [cur] is the piece being
    read. *)
Fixpoint split_go (fuel : nat) (sep cur s : jstr) : list jstr :=
  match fuel, s with
  | _, [] => [cur]
  | O, _ => [cur]
  | S fuel', c :: s' =>
      match strip_prefix sep s with
      | Some rest => cur :: split_go fuel' sep [] rest
      | None => split_go fuel' sep (cur ++ [c]) s'
      end
  end.

(** [s.split(sep)]; the empty separator cuts between all code units. *)
Definition split (sep s : jstr) : list jstr :=
  match sep with
  | [] => map (fun c => [c]) s
  | _ => split_go (length s) sep [] s
  end.

(** [parts.join(sep)]. *)
Fixpoint join (sep : jstr) (parts : list jstr) : jstr :=
  match parts with
  | [] => []
  | [x] => x
  | x :: rest => x ++ sep ++ join sep rest
  end.

(** ** getByPath *)

Section GetByPath.

Context {prototypes : Prototypes}.

(** [while (paths.length && obj) obj = obj[paths.shift()]]. The walk has no
    data value to go on with ([None]) once a key may be found in a
    prototype. *)
Fixpoint walk (paths : list jstr) (o : value) : option value :=
  match paths with
  | [] => Some o
  | key :: paths' =>
      if truthy o then
        match get_prop o key with
        | Some o' => walk paths' o'
        | None => None
        end
      else Some o
  end.

(** A path that is not a string has no [split] method. The outcome is
    [Some (Ok v)] when [v] is returned, [Some (Throw e)] when [e] is raised,
    and [None] when the walk has left the data values. *)
Definition getByPath (o path separator : value) : option (result value) :=
  let separator := if truthy separator then separator else VStr (js ".") in
  match path with
  | VStr p =>
      let paths := split (to_string separator) p in
      option_map Ok (walk paths o)
  | _ => Some (Throw TypeError)
  end.

End GetByPath.

(** ** encodeURIComponent and decodeURIComponent *)

(** The characters left as they are: letters, digits and [-_.!~*'()]. *)
Definition uri_unescaped (c : Z) : bool :=
  ((65 <=? c) && (c <=? 90)) || ((97 <=? c) && (c <=? 122))
  || is_digit c
  || existsb (Z.eqb c) [45; 95; 46; 33; 126; 42; 39; 40; 41].

Definition is_high_surrogate (c : Z) : bool := (0xD800 <=? c) && (c <=? 0xDBFF).
Definition is_low_surrogate (c : Z) : bool := (0xDC00 <=? c) && (c <=? 0xDFFF).

(** The code point of a surrogate pair. *)
Definition pair_code_point (hi lo : Z) : Z :=
  (hi - 0xD800) * 0x400 + (lo - 0xDC00) + 0x10000.

(** The octets of a code point in UTF-8: [0xxxxxxx], [110xxxxx 10xxxxxx],
    [1110xxxx 10xxxxxx 10xxxxxx] or [11110xxx 10xxxxxx 10xxxxxx 10xxxxxx],
    the bits of the code point filling the places marked [x]. *)
Definition utf8_octets (v : Z) : list Z :=
  if v <? 0x80 then [v]
  else if v <? 0x800 then
    [0xC0 + v / 64; 0x80 + v mod 64]
  else if v <? 0x10000 then
    [0xE0 + v / 4096; 0x80 + (v / 64) mod 64; 0x80 + v mod 64]
  else
    [0xF0 + v / 262144; 0x80 + (v / 4096) mod 64;
     0x80 + (v / 64) mod 64; 0x80 + v mod 64].

Definition hex_digit (d : Z) : Z := if d <? 10 then 48 + d else 55 + d.

(** An octet as [%XX], with capital hexadecimal digits. *)
Definition pct_octet (b : Z) : jstr :=
  [37; hex_digit (b / 16); hex_digit (b mod 16)].

Definition pct_octets (bs : list Z) : jstr := concat (map pct_octet bs).

(** [encodeURIComponent(s)]: a surrogate that is not part of a pair raises
    a [URIError]. *)
Fixpoint encodeURIComponent (s : jstr) : result jstr :=
  match s with
  | [] => Ok []
  | c :: s' =>
      if uri_unescaped c then
        r <- encodeURIComponent s' ;; Ok (c :: r)
      else if is_low_surrogate c then Throw URIError
      else if negb (is_high_surrogate c) then
        r <- encodeURIComponent s' ;; Ok (pct_octets (utf8_octets c) ++ r)
      else
        match s' with
        | [] => Throw URIError
        | k :: s'' =>
            if negb (is_low_surrogate k) then Throw URIError
            else
              r <- encodeURIComponent s'' ;;
              Ok (pct_octets (utf8_octets (pair_code_point c k)) ++ r)
        end
  end.

Definition hex_value (c : Z) : option Z :=
  if is_digit c then Some (c - 48)
  else if (65 <=? c) && (c <=? 70) then Some (c - 55)
  else if (97 <=? c) && (c <=? 102) then Some (c - 87)
  else None.

(** The octet written [%XX] at the head of [s], and what follows it. *)
Definition read_octet (s : jstr) : option (Z * jstr) :=
  match s with
  | p :: h :: l :: rest =>
      if p =? 37 then
        match hex_value h, hex_value l with
        | Some a, Some b => Some (16 * a + b, rest)
        | _, _ => None
        end
      else None
  | _ => None
  end.

(** [n] further octets of the form [10xxxxxx]. *)
Fixpoint read_continuation (n : nat) (s : jstr) : option (list Z * jstr) :=
  match n with
  | O => Some ([], s)
  | S n' =>
      match read_octet s with
      | Some (b, rest) =>
          if (0x80 <=? b) && (b <? 0xC0) then
            match read_continuation n' rest with
            | Some (bs, rest') => Some (b :: bs, rest')
            | None => None
            end
          else None
      | None => None
      end
  end.

(** The number of octets that follow the leading octet [b >= 0x80] of a
    sequence; [10xxxxxx] and [11111xxx] lead no sequence. *)
Definition continuation_count (b : Z) : option nat :=
  if b <? 0xC0 then None
  else if b <? 0xE0 then Some 1%nat
  else if b <? 0xF0 then Some 2%nat
  else if b <? 0xF8 then Some 3%nat
  else None.

(** The code point of a sequence of octets, when the sequence is the UTF-8
    form of one: the shortest form, not a surrogate, at most 0x10FFFF. *)
Definition utf8_code_point (b : Z) (bs : list Z) : option Z :=
  match bs with
  | [b1] =>
      let v := (b - 0xC0) * 64 + (b1 - 0x80) in
      if 0x80 <=? v then Some v else None
  | [b1; b2] =>
      let v := (b - 0xE0) * 4096 + (b1 - 0x80) * 64 + (b2 - 0x80) in
      if (0x800 <=? v) && negb ((0xD800 <=? v) && (v <=? 0xDFFF))
      then Some v else None
  | [b1; b2; b3] =>
      let v := (b - 0xF0) * 262144 + (b1 - 0x80) * 4096
               + (b2 - 0x80) * 64 + (b3 - 0x80) in
      if (0x10000 <=? v) && (v <=? 0x10FFFF) then Some v else None
  | _ => None
  end.

(** The code units of a code point. *)
Definition utf16_units (v : Z) : jstr :=
  if v <? 0x10000 then [v]
  else [(v - 0x10000) / 1024 + 0xD800; (v - 0x10000) mod 1024 + 0xDC00].

(** [decodeURIComponent(s)]: every step consumes a code unit, so
    [length s] steps are enough. *)
Fixpoint decode_go (fuel : nat) (s : jstr) : result jstr :=
  match fuel, s with
  | _, [] => Ok []
  | O, _ => Ok []
  | S fuel', c :: s' =>
      if negb (c =? 37) then r <- decode_go fuel' s' ;; Ok (c :: r)
      else
        match read_octet s with
        | None => Throw URIError
        | Some (b, rest) =>
            if b <? 0x80 then r <- decode_go fuel' rest ;; Ok (b :: r)
            else
              match continuation_count b with
              | None => Throw URIError
              | Some n =>
                  match read_continuation n rest with
                  | None => Throw URIError
                  | Some (bs, rest') =>
                      match utf8_code_point b bs with
                      | None => Throw URIError
                      | Some v =>
                          r <- decode_go fuel' rest' ;;
                          Ok (utf16_units v ++ r)
                      end
                  end
              end
        end
  end.

Definition decodeURIComponent (s : jstr) : result jstr :=
  decode_go (length s) s.

(** ** state2uri and uri2state *)

(** The properties a [for (key in state)] loop visits, with their values. *)
Definition for_in (state : value) : list (jstr * value) :=
  match state with
  | VObj props => props
  | VArr l =>
      map (fun iv => (Z_to_jstr (Z.of_nat (fst iv)), snd iv))
          (combine (seq 0 (length l)) l)
  | VStr s =>
      map (fun ic => (Z_to_jstr (Z.of_nat (fst ic)), VStr [snd ic]))
          (combine (seq 0 (length s)) s)
  | _ => []
  end.

Fixpoint state2uri_parts (entries : list (jstr * value)) : result (list jstr) :=
  match entries with
  | [] => Ok []
  | (key, v) :: entries' =>
      value <- encodeURIComponent (to_string v) ;;
      parts <- state2uri_parts entries' ;;
      Ok ((key ++ 61 :: value) :: parts)
  end.

Definition state2uri (state : value) : result jstr :=
  parts <- state2uri_parts (for_in state) ;;
  Ok (join (js "&") parts).

(** The characters [.] of a regular expression does not match. *)
Definition is_line_terminator (c : Z) : bool :=
  existsb (Z.eqb c) [10; 13; 0x2028; 0x2029].

(** The matches in [s] of the regular expression of [uri2state] (a group of
    one or more characters other than [=], an optional [=], a group of any
    characters of the line), as the pairs of the two groups: a match starts at the first character that is not [=], takes
    the run of such characters, an [=] when one follows, and the rest of the
    line; the search resumes where the match ended. *)
Fixpoint name_value_matches (fuel : nat) (s : jstr) : list (jstr * jstr) :=
  match fuel, s with
  | _, [] => []
  | O, _ => []
  | S fuel', c :: s' =>
      if c =? 61 then name_value_matches fuel' s'
      else
        let (name, r1) := span (fun x => negb (x =? 61)) s in
        let r2 :=
          match r1 with
          | e :: r => if e =? 61 then r else r1
          | [] => []
          end in
        let (value, r3) := span (fun x => negb (is_line_terminator x)) r2 in
        (name, value) :: name_value_matches fuel' r3
  end.

(** [result[name] = decodeURIComponent(value)] for each match, in order;
    [res] is the object the source calls [result]. *)
Fixpoint store_matches (ms : list (jstr * jstr)) (res : obj) : result obj :=
  match ms with
  | [] => Ok res
  | (name, value) :: ms' =>
      v <- decodeURIComponent value ;;
      store_matches ms' (obj_assign name (VStr v) res)
  end.

(** [_.each(parts, function(part) {...})]. *)
Fixpoint each_part (parts : list jstr) (res : obj) : result obj :=
  match parts with
  | [] => Ok res
  | part :: parts' =>
      match part with
      | [] => each_part parts' res
      | _ =>
          res' <- store_matches (name_value_matches (length part) part) res ;;
          each_part parts' res'
      end
  end.

(** A truthy [uri] that is not a string has no [charAt] method. *)
Definition uri2state (uri : value) : result value :=
  if negb (truthy uri) then Ok (VObj [])
  else
    match uri with
    | VStr u =>
        let u :=
          match u with
          | c :: u' => if c =? 63 then u' else u
          | [] => u
          end in
        let parts := split (js "&") u in
        res <- each_part parts [] ;;
        Ok (VObj res)
    | _ => Throw TypeError
    end.

(** ** The querystring module *)

(** An object as [querystring.parse] builds it and as [_.extend] reads it:
    no two properties of the same name, and no own property [__proto__]
    (an assignment cannot create one on an ordinary object). *)
Fixpoint distinct_keys (o : obj) : bool :=
  match o with
  | [] => true
  | (k, _) :: o' => negb (has_own k o') && distinct_keys o'
  end.

Definition ordinary (o : obj) : bool :=
  distinct_keys o && negb (has_own (js "__proto__") o).

(** The two functions of the module [querystring] that [extendQuery] calls.
    The module is a dependency of the repository; the properties of
    [extendQuery] hold for every implementation of it that returns ordinary
    objects. *)
Class QueryString : Type := {
  qs_parse : jstr -> result obj;
  qs_stringify : obj -> result jstr;
  qs_parse_ordinary : forall s o, qs_parse s = Ok o -> ordinary o = true
}.

(** [s.indexOf(c)] for a single character [c], and [s.slice]. *)
Fixpoint indexOf_from (c : Z) (s : jstr) (i : Z) : Z :=
  match s with
  | [] => -1
  | x :: s' => if x =? c then i else indexOf_from c s' (i + 1)
  end.

Definition indexOf (c : Z) (s : jstr) : Z := indexOf_from c s 0.

Definition slice_from (start : Z) (s : jstr) : jstr := skipn (Z.to_nat start) s.

Definition slice_to (stop : Z) (s : jstr) : jstr := firstn (Z.to_nat stop) s.

(** *** The module as packaged for browsers

    The algorithm of Node's module; an escape sequence that is malformed
    makes [decodeURIComponent] raise. *)

(** [x.replace(/\+/g, '%20')]. *)
Definition plus_to_space (x : jstr) : jstr :=
  flat_map (fun c => if c =? 43 then js "%20" else [c]) x.

(** One more value [v] for the name [k]: a second value turns the property
    into an array, further ones are pushed on it. *)
Definition qs_add (k v : jstr) (o : obj) : obj :=
  match get_own k o with
  | None => obj_assign k (VStr v) o
  | Some (VArr l) => replace_value k (VArr (l ++ [VStr v])) o
  | Some x => obj_assign k (VArr [x; VStr v]) o
  end.

Fixpoint classic_parse_parts (parts : list jstr) (o : obj) : result obj :=
  match parts with
  | [] => Ok o
  | part :: parts' =>
      let x := plus_to_space part in
      let idx := indexOf 61 x in
      let kstr := if 0 <=? idx then slice_to idx x else x in
      let vstr := if 0 <=? idx then slice_from (idx + 1) x else [] in
      k <- decodeURIComponent kstr ;;
      v <- decodeURIComponent vstr ;;
      classic_parse_parts parts' (qs_add k v o)
  end.

(** [querystring.parse(qs)]: at most 1000 pairs are read. *)
Definition classic_parse (qs : jstr) : result obj :=
  match qs with
  | [] => Ok []
  | _ => classic_parse_parts (firstn 1000 (split (js "&") qs)) []
  end.

Definition stringifyPrimitive (v : value) : jstr :=
  match v with
  | VStr s => s
  | VBool true => js "true"
  | VBool false => js "false"
  | VNum n => Z_to_jstr (number_value n)
  | _ => []
  end.

Fixpoint stringify_values (ks : jstr) (l : list value) : result (list jstr) :=
  match l with
  | [] => Ok []
  | v :: l' =>
      e <- encodeURIComponent (stringifyPrimitive v) ;;
      rest <- stringify_values ks l' ;;
      Ok ((ks ++ e) :: rest)
  end.

Fixpoint stringify_entries (entries : obj) : result (list jstr) :=
  match entries with
  | [] => Ok []
  | (k, v) :: entries' =>
      ek <- encodeURIComponent k ;;
      let ks := ek ++ [61] in
      item <-
        match v with
        | VArr l => items <- stringify_values ks l ;; Ok (join (js "&") items)
        | _ => e <- encodeURIComponent (stringifyPrimitive v) ;; Ok (ks ++ e)
        end ;;
      rest <- stringify_entries entries' ;;
      Ok (item :: rest)
  end.

(** [querystring.stringify(obj)]. *)
Definition classic_stringify (o : obj) : result jstr :=
  parts <- stringify_entries o ;;
  Ok (join (js "&") parts).

(** ** extendQuery *)

(** The arguments [extendQuery] is documented for: a string or, for
    [oldUrl], an object of parameters; [Missing] is [null] or [undefined]. *)
Inductive url_arg : Type :=
| Missing
| Url (s : jstr)
| Params (o : obj).

(** [_.isEmpty]. *)
Definition isEmpty (u : url_arg) : bool :=
  match u with
  | Missing => true
  | Url s => match s with [] => true | _ => false end
  | Params o => match o with [] => true | _ => false end
  end.

(** [_.extend(object, source)]: every own property of [source] is assigned
    to [object], which is returned. *)
Definition extend (object source : obj) : obj :=
  fold_left (fun o kv => obj_assign (fst kv) (snd kv) o) source object.

(** The query of a URL: what follows its first [?]. *)
Definition query_of (url : jstr) : jstr :=
  let queryIndex := indexOf 63 url in
  if negb (queryIndex =? -1) then slice_from (queryIndex + 1) url else [].

Definition parse_query `{QueryString} (query : jstr) : result obj :=
  match query with
  | [] => Ok []
  | _ => qs_parse query
  end.

(** [extendQuery(newUrl, oldUrl, forcedRenewParam)]. [newUrl] and
    [forcedRenewParam] are strings or missing ([None]). The second component
    of the result is the argument [oldUrl] as the call leaves it: when it is
    an object, [oldQueryParsed] is that very object, and [delete] and
    [_.extend] act on it. *)
Definition extendQuery `{QueryString}
    (newUrl : option jstr) (oldUrl : url_arg) (forcedRenewParam : option jstr)
  : result jstr * url_arg :=
  let newUrl := match newUrl with Some s => s | None => [] end in
  if isEmpty oldUrl && isEmpty (Url newUrl) then (Ok [], oldUrl)
  else if isEmpty oldUrl then (Ok newUrl, oldUrl)
  else
    let newQueryIndex := indexOf 63 newUrl in
    match parse_query (query_of newUrl) with
    | Throw e => (Throw e, oldUrl)
    | Ok newQueryParsed =>
        match
          match oldUrl with
          | Url s => parse_query (query_of s)
          | Params o => Ok o
          | Missing => Ok []
          end
        with
        | Throw e => (Throw e, oldUrl)
        | Ok oldQueryParsed =>
            let oldQueryParsed :=
              match forcedRenewParam with
              | Some (c :: k) => obj_delete (c :: k) oldQueryParsed
              | _ => oldQueryParsed
              end in
            let resQueryParsed := extend oldQueryParsed newQueryParsed in
            let resBase :=
              if negb (newQueryIndex =? -1) then slice_to newQueryIndex newUrl
              else newUrl in
            let resQuery :=
              match resQueryParsed with
              | [] => Ok []
              | _ => q <- qs_stringify resQueryParsed ;; Ok (63 :: q)
              end in
            (r <- resQuery ;; Ok (resBase ++ r),
             match oldUrl with
             | Params _ => Params resQueryParsed
             | _ => oldUrl
             end)
        end
    end.

(** ** Logging *)

(** What the logging functions read from their surroundings: the global
    [DEBUG], the list [log_channels] of the configuration (the names of the
    active channels), and the console, given by the names of its methods;
    [None] where there is no console. *)
Record surroundings : Type := {
  DEBUG : bool;
  log_channels : list jstr;
  console : option (list jstr)
}.

(** A call of a method of the console, with its arguments. *)
Definition console_call : Type := (jstr * list value)%type.

(** [_(log_channels).indexOf(channel)]: the channels are compared with
    [===], which a name satisfies with the same string only. *)
Fixpoint channel_indexOf (channels : list jstr) (channel : value) (i : Z) : Z :=
  match channels with
  | [] => -1
  | c :: channels' =>
      if match channel with VStr s => jstr_eqb c s | _ => false end then i
      else channel_indexOf channels' channel (i + 1)
  end.

Definition logEnabledFor (env : surroundings) (channel : value) : bool :=
  if DEBUG env then
    negb (channel_indexOf (log_channels env) channel 0 =? -1)
  else false.

(** [logToChannel(channel, type, ...)], called with the list [arguments];
    the result is the list of the calls made on the console. A method the
    console does not have cannot be applied. *)
Definition logToChannel (env : surroundings) (arguments : list value)
  : result (list console_call) :=
  let channel := nth 0 arguments VUndefined in
  let type := nth 1 arguments VUndefined in
  let type := if truthy type then type else VStr (js "debug") in
  if DEBUG env then
    if logEnabledFor env channel then
      let args := skipn 2 arguments in
      match console env with
      | Some methods =>
          if existsb (jstr_eqb (to_string type)) methods
          then Ok [(to_string type, args)]
          else Throw TypeError
      | None => Ok []
      end
    else Ok []
  else Ok [].

(** [log(channel, ...)]: [args.splice(1, 0, 'log')] puts the type after
    the first argument, or first when there is no argument. *)
Definition log (env : surroundings) (arguments : list value)
  : result (list console_call) :=
  let args := arguments in
  let args := firstn 1 args ++ VStr (js "log") :: skipn 1 args in
  logToChannel env args.

(** [warn(...)]: [args.unshift('warn', 'warn')]. *)
Definition warn (env : surroundings) (arguments : list value)
  : result (list console_call) :=
  logToChannel env (VStr (js "warn") :: VStr (js "warn") :: arguments).

(** [error(...)]: [args.unshift('error', 'error')]. *)
Definition error (env : surroundings) (arguments : list value)
  : result (list console_call) :=
  logToChannel env (VStr (js "error") :: VStr (js "error") :: arguments).

(** ** Vocabulary of the statements *)

(** A template read as a sequence of pieces: literal text, and tokens [%N]
    given by their digits. *)
Inductive piece : Type :=
| Text (t : jstr)
| Token (ds : jstr).

Definition piece_source (p : piece) : jstr :=
  match p with
  | Text t => t
  | Token ds => 37 :: ds
  end.

Definition template_of (ps : list piece) : jstr := concat (map piece_source ps).

Definition starts_with_digit (s : jstr) : bool :=
  match s with
  | d :: _ => is_digit d
  | [] => false
  end.

(** Literal text [t] followed by [rest] holds no token: no [%] of it is
    followed by a digit. *)
Fixpoint text_ok (t rest : jstr) : bool :=
  match t with
  | [] => true
  | c :: t' =>
      (if c =? 37 then negb (starts_with_digit (t' ++ rest)) else true)
      && text_ok t' rest
  end.

(** The pieces are the tokens of their template: the digits of a token are
    all the digits that follow its [%]. *)
Fixpoint pieces_ok (ps : list piece) : bool :=
  match ps with
  | [] => true
  | Text t :: ps' => text_ok t (template_of ps') && pieces_ok ps'
  | Token ds :: ps' =>
      match ds with [] => false | _ => true end
      && forallb is_digit ds
      && negb (starts_with_digit (template_of ps'))
      && pieces_ok ps'
  end.







(** What a token stands for in the table [values] of all arguments. *)
Definition expand (values : list value) (p : piece) : jstr :=
  match p with
  | Text t => t
  | Token ds => to_string (arg_lookup values (parseInt10 ds))
  end.

(** The part of a string before the first [c], and the part after it
    (empty when [c] does not occur). *)
Definition before_first (c : Z) (s : jstr) : jstr :=
  fst (span (fun x => negb (x =? c)) s).

Definition after_first (c : Z) (s : jstr) : jstr :=
  match snd (span (fun x => negb (x =? c)) s) with
  | [] => []
  | _ :: r => r
  end.

(** The parameters of the old URL: those of its query, or the object given
    in its place. *)
Definition old_parameters `{QueryString} (oldUrl : url_arg) : result obj :=
  match oldUrl with
  | Missing => Ok []
  | Url s => parse_query (after_first 63 s)
  | Params o => Ok o
  end.

(** The merge of two mappings: the new value where there is one, the old
    one otherwise. *)
Definition merged_lookup (old new : obj) (k : jstr) : option value :=
  match get_own k new with
  | Some v => Some v
  | None => get_own k old
  end.

(** A code point that is not a surrogate. *)
Definition scalar (v : Z) : Prop :=
  0 <= v < 0xD800 \/ 0xE000 <= v < 0x110000.

(** A string without a surrogate out of a pair, all of whose code units are
    in range. *)
Fixpoint well_formed (s : jstr) : bool :=
  match s with
  | [] => true
  | c :: s' =>
      if is_high_surrogate c then
        match s' with
        | k :: s'' => is_low_surrogate k && well_formed s''
        | [] => false
        end
      else
        (0 <=? c) && (c <? 0x10000) && negb (is_low_surrogate c)
        && well_formed s'
  end.

(** The characters of an encoded component. *)
Definition uri_safe (c : Z) : bool := uri_unescaped c || (c =? 37).

(** The order of enumeration: array indices in ascending order, above
    [bound], and then names that are not array indices. *)
Fixpoint ordered (bound : Z) (o : obj) : bool :=
  match o with
  | [] => true
  | (k, _) :: o' =>
      match array_index k with
      | Some n => (bound <? n) && ordered n o'
      | None =>
          forallb (fun kv => match array_index (fst kv) with
                             | Some _ => false
                             | None => true
                             end) o'
      end
  end.

(** The properties of an object, as an object has them. *)
Definition enumeration_ok (o : obj) : bool := distinct_keys o && ordered (-1) o.

(** A key that [uri2state] reads back: not empty, without [=] and [&], and
    not the name [__proto__]. *)
Definition key_ok (k : jstr) : bool :=
  match k with [] => false | _ => true end
  && forallb (fun c => negb (c =? 61) && negb (c =? 38)) k
  && negb (jstr_eqb k (js "__proto__")).

Definition value_ok (v : value) : bool :=
  match v with
  | VStr s => well_formed s
  | _ => false
  end.

(** The states that come back from their URI: string values, keys that can
    be read back, and a first key that does not begin with [?]. *)
Definition comes_back (props : obj) : bool :=
  enumeration_ok props
  && forallb (fun kv => key_ok (fst kv) && value_ok (snd kv)) props
  && match props with
     | (c :: _, _) :: _ => negb (c =? 63)
     | _ => true
     end.

(** The last index before [index] of an element that satisfies [p]. *)
Fixpoint last_index_from {A : Type} (p : A -> bool) (index : nat) (array : list A) : Z :=
  match index with
  | O => -1
  | S index' =>
      match nth_error array index' with
      | Some x =>
          if p x then Z.of_nat index' else last_index_from p index' array
      | None => last_index_from p index' array
      end
  end.

(** The array without its last element that satisfies [p]. *)
Definition splice_last {A : Type} (p : A -> bool) (array : list A) : list A :=
  let lastIndex := last_index_from p (length array) array in
  if negb (lastIndex =? -1) then splice1 lastIndex array else array.

(** Numbers as elements of an array: [NaN] is equal to no number, itself
    included. *)
Inductive element : Type :=
| Num (n : Z)
| NaN.

Definition element_equals (a b : element) : bool :=
  match a, b with
  | Num x, Num y => x =? y
  | _, _ => false
  end.





(** A parameter [k=v] that [uri2state] reads as one assignment. *)
Definition plain_pair (k v : jstr) : bool :=
  match k with [] => false | _ => true end
  && forallb (fun x => negb (x =? 61) && negb (x =? 38)) k
  && forallb (fun x => negb (x =? 38) && negb (is_line_terminator x)) v.

(** The values of an object are all strings. *)
Definition string_values (o : obj) : bool :=
  forallb (fun kv => match snd kv with VStr _ => true | _ => false end) o.




(** A string without [%]. *)
Definition no_percent (s : jstr) : bool := forallb (fun c => negb (c =? 37)) s.

(** The case mapping of the ASCII letters, enough for examples. *)
#[export] Instance ascii_case : CaseMapping := {|
  toUpperCase :=
    map (fun c => if (97 <=? c) && (c <=? 122) then c - 32 else c);
  toUpperCase_empty := eq_refl
|}.

(** * Properties *)

(** ** Strings *)

Lemma jstr_eqb_refl (a : jstr) : jstr_eqb a a = true.
Proof.
  induction a as [|x a IH]; simpl; [reflexivity|].
  now rewrite Z.eqb_refl, IH.
Qed.

Lemma jstr_eqb_eq (a b : jstr) : jstr_eqb a b = true <-> a = b.
Proof.
  split.
  - revert b; induction a as [|x a IH]; intros [|y b] H; simpl in H;
      try discriminate; [reflexivity|].
    apply andb_true_iff in H as [Hx Hab].
    apply Z.eqb_eq in Hx. apply IH in Hab. congruence.
  - intros ->. apply jstr_eqb_refl.
Qed.

Lemma jstr_eqb_neq (a b : jstr) : jstr_eqb a b = false <-> a <> b.
Proof.
  rewrite <- jstr_eqb_eq. destruct (jstr_eqb a b); split; congruence.
Qed.

Lemma jstr_eqb_sym (a b : jstr) : jstr_eqb a b = jstr_eqb b a.
Proof.
  destruct (jstr_eqb a b) eqn:E.
  - apply jstr_eqb_eq in E. subst. symmetry. apply jstr_eqb_refl.
  - symmetry. apply jstr_eqb_neq. apply jstr_eqb_neq in E. congruence.
Qed.

Lemma span_length {A : Type} (p : A -> bool) (l a b : list A) :
  span p l = (a, b) -> (length b <= length l)%nat.
Proof.
  revert a b; induction l as [|x l IH]; intros a b H; simpl in H.
  - inversion H; subst. simpl. lia.
  - destruct (p x).
    + destruct (span p l) as [a' b'] eqn:E. inversion H; subst.
      specialize (IH _ _ eq_refl). simpl. lia.
    + inversion H; subst. simpl. lia.
Qed.

Lemma span_parts {A : Type} (p : A -> bool) (l : list A) :
  l = fst (span p l) ++ snd (span p l).
Proof.
  induction l as [|x l IH]; [reflexivity|].
  simpl. destruct (p x); [|reflexivity].
  destruct (span p l) as [a b]. simpl in *. now f_equal.
Qed.

Lemma span_app {A : Type} (p : A -> bool) (a rest : list A) :
  forallb p a = true ->
  match rest with [] => true | x :: _ => negb (p x) end = true ->
  span p (a ++ rest) = (a, rest).
Proof.
  intros Ha Hr. induction a as [|x a IH]; simpl in *.
  - destruct rest as [|y rest]; [reflexivity|]. simpl.
    apply negb_true_iff in Hr. now rewrite Hr.
  - apply andb_true_iff in Ha as [Hx Ha]. rewrite Hx, (IH Ha). reflexivity.
Qed.

(** ** format *)

Lemma replace_tokens_fuel (values : list value) (fuel1 : nat) :
  forall (fuel2 : nat) (s : jstr),
    (length s <= fuel1)%nat -> (length s <= fuel2)%nat ->
    replace_tokens fuel1 values s = replace_tokens fuel2 values s.
Proof.
  induction fuel1 as [|fuel1 IH]; intros fuel2 s H1 H2.
  - destruct s; [|simpl in H1; lia]. now destruct fuel2.
  - destruct s as [|c s]; [now destruct fuel2|].
    destruct fuel2 as [|fuel2]; [simpl in H2; lia|].
    simpl in *. destruct (c =? 37).
    + destruct (span is_digit s) as [ds rest] eqn:E.
      apply span_length in E.
      destruct ds; [f_equal; apply IH; lia|].
      f_equal. apply IH; lia.
    + f_equal. apply IH; lia.
Qed.

Lemma span_no_digit (l : jstr) :
  starts_with_digit l = false -> span is_digit l = ([], l).
Proof.
  destruct l as [|d l]; [reflexivity|]. simpl. now intros ->.
Qed.

Lemma replace_tokens_text (values : list value) (t rest : jstr) :
  text_ok t rest = true ->
  forall fuel, (length (t ++ rest) <= fuel)%nat ->
    replace_tokens fuel values (t ++ rest)
    = t ++ replace_tokens fuel values rest.
Proof.
  intros Ht. induction t as [|c t IH]; intros fuel Hf; [reflexivity|].
  simpl in Ht. apply andb_true_iff in Ht as [Hc Ht].
  destruct fuel as [|fuel]; [simpl in Hf; lia|].
  simpl in Hf.
  assert (Hrec : replace_tokens fuel values (t ++ rest)
                 = t ++ replace_tokens (S fuel) values rest).
  { rewrite (IH Ht fuel) by lia. f_equal.
    apply replace_tokens_fuel; rewrite ?length_app in *; lia. }
  cbn [replace_tokens app]. destruct (c =? 37).
  - apply negb_true_iff in Hc. rewrite (span_no_digit _ Hc), Hrec.
    reflexivity.
  - rewrite Hrec. reflexivity.
Qed.

Lemma replace_tokens_token (values : list value) (ds rest : jstr) :
  ds <> [] -> forallb is_digit ds = true -> starts_with_digit rest = false ->
  forall fuel, (length (37%Z :: ds ++ rest) <= fuel)%nat ->
    replace_tokens fuel values (37 :: ds ++ rest)
    = to_string (arg_lookup values (parseInt10 ds))
        ++ replace_tokens fuel values rest.
Proof.
  intros Hne Hds Hrest fuel Hf.
  destruct fuel as [|fuel]; [simpl in Hf; lia|].
  rewrite (replace_tokens_fuel values (S fuel) fuel rest)
    by (simpl in Hf; rewrite length_app in Hf; lia).
  cbn [replace_tokens]. rewrite Z.eqb_refl.
  rewrite span_app; [| assumption |].
  - destruct ds as [|d ds]; [congruence|]. reflexivity.
  - destruct rest; [reflexivity|]. simpl in Hrest. now rewrite Hrest.
Qed.

(** On a template made of pieces, every token is replaced by what it stands
    for in the table of arguments and the text is copied. *)
Lemma replace_tokens_pieces (values : list value) (ps : list piece) :
  pieces_ok ps = true ->
  forall fuel, (length (template_of ps) <= fuel)%nat ->
    replace_tokens fuel values (template_of ps)
    = concat (map (expand values) ps).
Proof.
  induction ps as [|p ps IH]; intros Hok fuel Hf.
  - now destruct fuel.
  - unfold template_of in *. cbn [map concat] in *.
    destruct p as [t|ds]; cbn [pieces_ok piece_source expand] in *.
    + apply andb_true_iff in Hok as [Ht Hok].
      rewrite replace_tokens_text by assumption.
      f_equal. apply IH; [assumption|]. rewrite length_app in Hf. lia.
    + repeat (apply andb_true_iff in Hok as [Hok ?]).
      change ((37 :: ds) ++ concat (map piece_source ps))
        with (37 :: ds ++ concat (map piece_source ps)) in *.
      rewrite replace_tokens_token; try assumption.
      * f_equal. apply IH; [assumption|].
        simpl in Hf. rewrite length_app in Hf. lia.
      * destruct ds; [discriminate|congruence].
      * now apply negb_true_iff.
Qed.












Lemma template_has_pieces_bounded (n : nat) :
  forall s : jstr, (length s <= n)%nat ->
    exists ps, template_of ps = s /\ pieces_ok ps = true.
Proof.
  induction n as [|n IH]; intros s Hn.
  - destruct s; [|simpl in Hn; lia]. now exists [].
  - destruct s as [|c s]; [now exists []|]. simpl in Hn.
    assert (Htext : starts_with_digit s = false \/ (c =? 37) = false ->
                    exists ps, template_of ps = c :: s /\ pieces_ok ps = true).
    { intros Hc. destruct (IH s ltac:(lia)) as (ps & Hps & Hok).
      exists (Text [c] :: ps). unfold template_of in *. cbn [map concat].
      rewrite Hps. split; [reflexivity|].
      cbn [pieces_ok text_ok app]. unfold template_of. rewrite Hps, Hok.
      destruct Hc as [Hc|Hc]; rewrite Hc; [destruct (c =? 37)|]; reflexivity. }
    destruct (c =? 37) eqn:Hc; [|now apply Htext; right].
    destruct (starts_with_digit s) eqn:Hd; [|now apply Htext; left].
    pose proof (span_parts is_digit s) as Hparts.
    destruct (span is_digit s) as [ds rest] eqn:E.
    pose proof (span_length _ _ _ _ E) as Hlen. simpl in Hparts.
    destruct (IH rest ltac:(lia)) as (ps & Hps & Hok).
    apply Z.eqb_eq in Hc. subst c.
    exists (Token ds :: ps). unfold template_of in *. cbn [map concat].
    rewrite Hps. split; [now rewrite Hparts|].
    cbn [pieces_ok]. unfold template_of. rewrite Hps, Hok.
    clear - E Hd. revert ds rest E.
    induction s as [|d s IHs]; intros ds rest E; [discriminate|].
    simpl in E, Hd. rewrite Hd in E.
    destruct (span is_digit s) as [ds' rest'] eqn:E'.
    inversion E; subst. cbn [forallb]. rewrite Hd.
    destruct s as [|d' s].
    + inversion E'; subst. reflexivity.
    + destruct (is_digit d') eqn:Hd'.
      * specialize (IHs Hd' _ _ eq_refl).
        repeat (apply andb_true_iff in IHs as [IHs ?]).
        cbn [andb]. apply andb_true_iff. split; [|reflexivity].
        apply andb_true_iff. split; assumption.
      * simpl in E'. rewrite Hd' in E'. inversion E'; subst.
        simpl. now rewrite Hd'.
Qed.

(** Every template is made of pieces. *)
Lemma template_has_pieces (s : jstr) :
  exists ps, template_of ps = s /\ pieces_ok ps = true.
Proof. exact (template_has_pieces_bounded (length s) s (le_n _)). Qed.

(** C10: the token [%0] stands for the template itself, the first entry of
    the table of arguments: the template is inserted again in the result,
    whatever the other arguments are. *)
Theorem format_zero_inserts_template (pre post : jstr) (extra : list value) :
  text_ok pre (js "%0" ++ post) = true ->
  text_ok post [] = true ->
  starts_with_digit post = false ->
  let template := pre ++ js "%0" ++ post in
  format (VStr template) extra = Ok (VStr (pre ++ template ++ post)).
Proof.
  intros Hpre Hpost Hd template.
  assert (Ht : template = template_of [Text pre; Token (js "0"); Text post]).
  { unfold template, template_of. simpl. now rewrite app_nil_r. }
  unfold format.
  rewrite Ht at 1 3.
  rewrite replace_tokens_pieces.
  - simpl. rewrite app_nil_r. reflexivity.
  - cbn [pieces_ok]. unfold template_of. cbn [map concat piece_source].
    rewrite app_nil_r. change ((37 :: js "0") ++ post) with (js "%0" ++ post).
    rewrite Hpre, Hpost, Hd. reflexivity.
  - rewrite <- Ht. lia.
Qed.

Lemma format_zero_inserts_template_witness :
  format (VStr (js "x%0")) [VStr (js "A")] = Ok (VStr (js "xx%0")).
Proof.
  exact (format_zero_inserts_template (js "x") [] [VStr (js "A")]
           eq_refl eq_refl eq_refl).
Defined.

(** ** pop *)

Section PopProperties.

Context {A : Type} (strict_equals : A -> A -> bool).

Lemma lastIndexOf_from_last_index (array : list A) (value : A) (index : nat) :
  lastIndexOf_from strict_equals index array value
  = last_index_from (fun x => strict_equals x value) index array.
Proof.
  induction index as [|index IH]; simpl; [reflexivity|].
  now rewrite IH.
Qed.

Lemma indexOfNaN_from_last_index (array : list A) (index : nat) :
  indexOfNaN_from strict_equals index array
  = last_index_from (fun x => negb (strict_equals x x)) index array.
Proof.
  induction index as [|index IH]; simpl; [reflexivity|].
  now rewrite IH.
Qed.

(** What [pop] does for a value that is equal to itself, and for one that
    is not. *)
Lemma pop_equal (array : list A) (value : A) :
  strict_equals value value = true ->
  pop strict_equals array value
  = splice_last (fun x => strict_equals x value) array.
Proof.
  intros Hv. unfold pop, lastIndexOf, splice_last. rewrite Hv. cbn [negb].
  now rewrite lastIndexOf_from_last_index.
Qed.

Lemma pop_unequal (array : list A) (value : A) :
  strict_equals value value = false ->
  pop strict_equals array value
  = splice_last (fun x => negb (strict_equals x x)) array.
Proof.
  intros Hv. unfold pop, lastIndexOf, splice_last. rewrite Hv. cbn [negb].
  now rewrite indexOfNaN_from_last_index.
Qed.

Lemma last_index_from_none (p : A -> bool) (array : list A) (index : nat) :
  (forall x, In x array -> p x = false) ->
  last_index_from p index array = -1.
Proof.
  intros Hno. induction index as [|index IH]; simpl; [reflexivity|].
  destruct (nth_error array index) as [x|] eqn:E; [|exact IH].
  rewrite (Hno x (nth_error_In _ _ E)). exact IH.
Qed.

Lemma last_index_from_last (p : A -> bool) (pre post : list A) (x : A) (n : nat) :
  p x = true ->
  (forall y, In y post -> p y = false) ->
  (n <= length post)%nat ->
  last_index_from p (S (length pre + n)) (pre ++ x :: post)
  = Z.of_nat (length pre).
Proof.
  intros Hx Hpost. induction n as [|n IH]; intros Hn.
  - rewrite Nat.add_0_r. simpl.
    rewrite nth_error_app2, Nat.sub_diag by lia. simpl. now rewrite Hx.
  - cbn [last_index_from].
    rewrite nth_error_app2 by lia.
    replace (length pre + S n - length pre)%nat with (S n) by lia.
    simpl nth_error.
    destruct (nth_error post n) as [y|] eqn:E.
    + rewrite (Hpost y (nth_error_In _ _ E)).
      replace (length pre + S n)%nat with (S (length pre + n)) by lia.
      apply IH. lia.
    + apply nth_error_None in E. lia.
Qed.

Lemma splice1_middle (pre post : list A) (x : A) :
  splice1 (Z.of_nat (length pre)) (pre ++ x :: post) = pre ++ post.
Proof.
  unfold splice1. rewrite Nat2Z.id.
  rewrite firstn_app, Nat.sub_diag, firstn_all, firstn_O, app_nil_r.
  rewrite skipn_app, skipn_all2 by lia.
  replace (S (length pre) - length pre)%nat with 1%nat by lia.
  reflexivity.
Qed.

Lemma splice_last_none (p : A -> bool) (array : list A) :
  (forall x, In x array -> p x = false) ->
  splice_last p array = array.
Proof.
  intros Hno. unfold splice_last. now rewrite last_index_from_none.
Qed.

Lemma splice_last_at (p : A -> bool) (pre post : list A) (x : A) :
  p x = true ->
  (forall y, In y post -> p y = false) ->
  splice_last p (pre ++ x :: post) = pre ++ post.
Proof.
  intros Hx Hpost. unfold splice_last.
  rewrite length_app. cbn [length].
  replace (length pre + S (length post))%nat
    with (S (length pre + length post)) by lia.
  rewrite (last_index_from_last p pre post x) by (assumption || lia).
  destruct (Z.of_nat (length pre) =? -1) eqn:E; [apply Z.eqb_eq in E; lia|].
  simpl. apply splice1_middle.
Qed.

(** C9, as the code has it: for a value that is equal to itself, [pop]
    leaves an array without an element equal to the value as it is, and
    removes from any other array the last such element and nothing else.
    For a value that is not equal to itself, which is [NaN], what [pop]
    looks for is an element that is not equal to itself: it removes the
    last of these and nothing else, and leaves an array without one as it
    is. *)
Theorem pop_removes_last_match (array : list A) (value : A) :
  (strict_equals value value = true ->
   ((forall x, In x array -> strict_equals x value = false) ->
    pop strict_equals array value = array)
   /\ (forall pre x post,
         array = pre ++ x :: post ->
         strict_equals x value = true ->
         (forall y, In y post -> strict_equals y value = false) ->
         pop strict_equals array value = pre ++ post))
  /\ (strict_equals value value = false ->
      ((forall x, In x array -> strict_equals x x = true) ->
       pop strict_equals array value = array)
      /\ (forall pre x post,
            array = pre ++ x :: post ->
            strict_equals x x = false ->
            (forall y, In y post -> strict_equals y y = true) ->
            pop strict_equals array value = pre ++ post)).
Proof.
  split; intros Hv.
  - rewrite (pop_equal _ _ Hv). split.
    + apply splice_last_none.
    + intros pre x post -> Hx Hpost. now apply splice_last_at.
  - rewrite (pop_unequal _ _ Hv). split.
    + intros Hno. apply splice_last_none.
      intros x Hx. now rewrite (Hno x Hx).
    + intros pre x post -> Hx Hpost. apply splice_last_at.
      * now rewrite Hx.
      * intros y Hy. now rewrite (Hpost y Hy).
Qed.

End PopProperties.

(** C9 as stated fails: no element of [[1, NaN, 2]] is strictly equal to
    [NaN], and [pop] removes one all the same. *)
Lemma pop_removes_NaN :
  forallb (fun x => negb (element_equals x NaN)) [Num 1; NaN; Num 2] = true
  /\ pop element_equals [Num 1; NaN; Num 2] NaN = [Num 1; Num 2].
Proof. split; reflexivity. Qed.

(** The example of the specification, [pop([1,2,1,3], 1)], and the removal
    of the last [NaN]. *)
Lemma pop_removes_last_match_witness :
  pop Z.eqb [1; 2; 1; 3] 1 = [1; 2; 3]
  /\ pop element_equals [NaN; Num 1; NaN; Num 2] NaN = [NaN; Num 1; Num 2].
Proof.
  split.
  - exact (proj2 (proj1 (pop_removes_last_match Z.eqb [1; 2; 1; 3] 1) eq_refl)
             [1; 2] 1 [3] eq_refl eq_refl
             (fun y H => match H with
                         | or_introl e => f_equal (fun z => z =? 1) (eq_sym e)
                         | or_intror F => match F with end
                         end)).
  - exact (proj2 (proj2 (pop_removes_last_match element_equals
                           [NaN; Num 1; NaN; Num 2] NaN) eq_refl)
             [NaN; Num 1] NaN [Num 2] eq_refl eq_refl
             (fun y H => match H with
                         | or_introl e =>
                             f_equal (fun z => element_equals z z) (eq_sym e)
                         | or_intror F => match F with end
                         end)).
Defined.

Example pop_absent : pop Z.eqb [1; 2; 1; 3] 7 = [1; 2; 1; 3].
Proof. reflexivity. Qed.

(** ** getByPath *)

Section GetByPathProperties.

Context {prototypes : Prototypes}.









End GetByPathProperties.


(** A name found in a prototype leads out of the data values:
    [getByPath({a:{}}, 'a.constructor.name')] is the name of a function of
    the runtime. *)
Example getByPath_inherited :
  getByPath (VObj [(js "a", VObj [])]) (VStr (js "a.constructor.name"))
    VUndefined
  = None.
Proof. reflexivity. Qed.

(** Elements of arrays and their number, characters of strings. *)
Example getByPath_elements :
  getByPath
    (VObj [(js "list", VArr [VStr (js "x"); VStr (js "yz")])])
    (VStr (js "list/1/length")) (VStr (js "/"))
  = Some (Ok (VNum {| number_value := 2; number_safe := eq_refl |}))
  /\ getByPath
       (VObj [(js "list", VArr [VStr (js "x"); VStr (js "yz")])])
       (VStr (js "list.4.length")) VUndefined
     = Some (Ok VUndefined).
Proof. split; reflexivity. Qed.

(** ** Objects *)

Lemma get_own_replace_value (k k' : jstr) (v : value) (o : obj) :
  has_own k o = true ->
  get_own k' (replace_value k v o)
  = if jstr_eqb k k' then Some v else get_own k' o.
Proof.
  unfold has_own. induction o as [|[k0 v0] o IH]; simpl; [discriminate|].
  destruct (jstr_eqb k0 k) eqn:E0.
  - intros _. apply jstr_eqb_eq in E0. subst k0. simpl.
    destruct (jstr_eqb k k'); reflexivity.
  - intros H. simpl. destruct (jstr_eqb k0 k') eqn:E1.
    + apply jstr_eqb_eq in E1. subst k'.
      rewrite jstr_eqb_sym, E0. reflexivity.
    + apply IH, H.
Qed.

Lemma has_own_cons_false (k k0 : jstr) (v0 : value) (o : obj) :
  has_own k ((k0, v0) :: o) = false ->
  jstr_eqb k0 k = false /\ has_own k o = false.
Proof.
  unfold has_own. simpl. destruct (jstr_eqb k0 k); [discriminate|]. auto.
Qed.

Lemma get_own_insert_index (n : Z) (k k' : jstr) (v : value) (o : obj) :
  has_own k o = false ->
  get_own k' (insert_index n k v o)
  = if jstr_eqb k k' then Some v else get_own k' o.
Proof.
  induction o as [|[k0 v0] o IH]; intros H.
  - simpl. destruct (jstr_eqb k k'); reflexivity.
  - apply has_own_cons_false in H as [E0 H]. simpl.
    destruct (array_index k0) as [m|]; [destruct (m <? n)|]; try reflexivity.
    simpl. rewrite (IH H).
    destruct (jstr_eqb k0 k') eqn:E1; [|reflexivity].
    apply jstr_eqb_eq in E1. subst k'. rewrite jstr_eqb_sym, E0. reflexivity.
Qed.

Lemma get_own_app (k k' : jstr) (v : value) (o : obj) :
  has_own k o = false ->
  get_own k' (o ++ [(k, v)])
  = if jstr_eqb k k' then Some v else get_own k' o.
Proof.
  induction o as [|[k0 v0] o IH]; intros H.
  - simpl. destruct (jstr_eqb k k'); reflexivity.
  - apply has_own_cons_false in H as [E0 H]. simpl. rewrite (IH H).
    destruct (jstr_eqb k0 k') eqn:E1; [|reflexivity].
    apply jstr_eqb_eq in E1. subst k'. rewrite jstr_eqb_sym, E0. reflexivity.
Qed.

Lemma get_own_obj_set (k k' : jstr) (v : value) (o : obj) :
  get_own k' (obj_set k v o)
  = if jstr_eqb k k' then Some v else get_own k' o.
Proof.
  unfold obj_set. destruct (has_own k o) eqn:H.
  - now apply get_own_replace_value.
  - destruct (array_index k).
    + now apply get_own_insert_index.
    + now apply get_own_app.
Qed.

Lemma get_own_obj_delete (k k' : jstr) (o : obj) :
  get_own k' (obj_delete k o)
  = if jstr_eqb k k' then None else get_own k' o.
Proof.
  unfold obj_delete. induction o as [|[k0 v0] o IH]; simpl.
  - destruct (jstr_eqb k k'); reflexivity.
  - destruct (jstr_eqb k0 k) eqn:E0; simpl.
    + apply jstr_eqb_eq in E0. subst k0. rewrite IH.
      destruct (jstr_eqb k k'); reflexivity.
    + rewrite IH. destruct (jstr_eqb k0 k') eqn:E1; [|reflexivity].
      apply jstr_eqb_eq in E1. subst k'. rewrite jstr_eqb_sym, E0. reflexivity.
Qed.

Lemma ordinary_cons (k : jstr) (v : value) (o : obj) :
  ordinary ((k, v) :: o) = true ->
  jstr_eqb k (js "__proto__") = false /\ has_own k o = false
  /\ ordinary o = true.
Proof.
  unfold ordinary. cbn [distinct_keys]. intros H.
  apply andb_true_iff in H as [H1 H2].
  apply andb_true_iff in H1 as [H1 H3].
  apply negb_true_iff in H1, H2.
  apply has_own_cons_false in H2 as [H2 H4].
  repeat split; try assumption. now rewrite H3, H4.
Qed.

(** After [_.extend(old, new)] a name has the value [new] gives it, or
    else the one it had in [old]. *)
Lemma get_own_extend (new : obj) :
  ordinary new = true ->
  forall (old : obj) (k : jstr),
    get_own k (extend old new) = merged_lookup old new k.
Proof.
  unfold extend, merged_lookup.
  induction new as [|[k0 v0] new IH]; intros Hnew old k; [reflexivity|].
  apply ordinary_cons in Hnew as (Hproto & Hfresh & Hnew).
  cbn [fold_left fst snd]. rewrite (IH Hnew).
  unfold obj_assign. rewrite Hproto, get_own_obj_set. simpl.
  destruct (jstr_eqb k0 k) eqn:E; [|reflexivity].
  apply jstr_eqb_eq in E. subst k0.
  unfold has_own in Hfresh. destruct (get_own k new); [discriminate|reflexivity].
Qed.

Lemma obj_set_not_empty (k : jstr) (v : value) (o : obj) : obj_set k v o <> [].
Proof.
  unfold obj_set. destruct (has_own k o) eqn:H.
  - destruct o as [|[k0 v0] o]; [discriminate|].
    simpl. destruct (jstr_eqb k0 k); discriminate.
  - destruct (array_index k).
    + destruct o as [|[k0 v0] o]; simpl; [discriminate|].
      destruct (array_index k0) as [m|]; [destruct (m <? z)|]; discriminate.
    + destruct o; discriminate.
Qed.

Lemma obj_assign_not_empty (k : jstr) (v : value) (o : obj) :
  o <> [] -> obj_assign k v o <> [].
Proof.
  intros H. unfold obj_assign.
  destruct (jstr_eqb k (js "__proto__")); [exact H|apply obj_set_not_empty].
Qed.

Lemma extend_not_empty_old (new old : obj) : old <> [] -> extend old new <> [].
Proof.
  unfold extend. revert old.
  induction new as [|[k0 v0] new IH]; intros old H; [exact H|].
  simpl. apply IH. now apply obj_assign_not_empty.
Qed.

Lemma extend_not_empty_new (new old : obj) :
  ordinary new = true -> new <> [] -> extend old new <> [].
Proof.
  intros Hord Hne. destruct new as [|[k0 v0] new]; [congruence|].
  apply ordinary_cons in Hord as (Hproto & _ & _).
  unfold extend. simpl. apply extend_not_empty_old.
  unfold obj_assign. rewrite Hproto. apply obj_set_not_empty.
Qed.

(** ** The parts of a URL *)

Lemma indexOf_from_span (c : Z) (s : jstr) :
  forall i,
    indexOf_from c s i
    = match snd (span (fun x => negb (x =? c)) s) with
      | [] => -1
      | _ :: _ => i + Z.of_nat (length (fst (span (fun x => negb (x =? c)) s)))
      end.
Proof.
  induction s as [|x s IH]; intros i; [reflexivity|].
  simpl. destruct (x =? c); simpl; [lia|].
  rewrite IH. destruct (span (fun x0 => negb (x0 =? c)) s) as [a b].
  simpl. destruct b; [reflexivity|lia].
Qed.

Lemma query_of_after_first (url : jstr) : query_of url = after_first 63 url.
Proof.
  unfold query_of, after_first, indexOf, slice_from.
  rewrite indexOf_from_span.
  pose proof (span_parts (fun x => negb (x =? 63)) url) as Hp.
  destruct (span (fun x => negb (x =? 63)) url) as [a b]. simpl in *.
  rewrite Hp. clear Hp.
  destruct b as [|x b]; [reflexivity|].
  destruct (Z.of_nat (length a) =? -1) eqn:E; [apply Z.eqb_eq in E; lia|].
  simpl.
  replace (Z.to_nat (Z.of_nat (length a) + 1)) with (length a + 1)%nat by lia.
  rewrite skipn_app, skipn_all2 by lia.
  replace (length a + 1 - length a)%nat with 1%nat by lia. reflexivity.
Qed.

Lemma base_before_first (url : jstr) :
  (if negb (indexOf 63 url =? -1) then slice_to (indexOf 63 url) url else url)
  = before_first 63 url.
Proof.
  unfold before_first, indexOf, slice_to.
  rewrite indexOf_from_span.
  pose proof (span_parts (fun x => negb (x =? 63)) url) as Hp.
  destruct (span (fun x => negb (x =? 63)) url) as [a b]. simpl in *.
  rewrite Hp. clear Hp.
  destruct b as [|x b]; [simpl; apply app_nil_r|].
  destruct (Z.of_nat (length a) =? -1) eqn:E; [apply Z.eqb_eq in E; lia|].
  simpl. rewrite Nat2Z.id, firstn_app, Nat.sub_diag, firstn_all. simpl.
  apply app_nil_r.
Qed.

Lemma before_first_app (c : Z) (a rest : jstr) :
  forallb (fun x => negb (x =? c)) a = true ->
  before_first c (a ++ c :: rest) = a /\ after_first c (a ++ c :: rest) = rest.
Proof.
  intros Ha. unfold before_first, after_first.
  rewrite span_app; [auto|assumption|].
  simpl. now rewrite Z.eqb_refl.
Qed.

(** ** extendQuery *)

Section ExtendQueryProperties.

Context `{QueryString}.

(** The call on an old URL that is not empty, in terms of the two
    mappings: what is returned, and what becomes of the argument. *)
Lemma extendQuery_not_empty (newUrl : jstr) (oldUrl : url_arg)
    (forcedRenewParam : option jstr) (pn po : obj) :
  isEmpty oldUrl = false ->
  parse_query (after_first 63 newUrl) = Ok pn ->
  old_parameters oldUrl = Ok po ->
  let kept :=
    match forcedRenewParam with
    | Some (c :: k) => obj_delete (c :: k) po
    | _ => po
    end in
  let merged := extend kept pn in
  extendQuery (Some newUrl) oldUrl forcedRenewParam
  = (match merged with
     | [] => Ok (before_first 63 newUrl)
     | _ => q <- qs_stringify merged ;; Ok (before_first 63 newUrl ++ 63 :: q)
     end,
     match oldUrl with
     | Params _ => Params merged
     | _ => oldUrl
     end).
Proof.
  intros Hold Hpn Hpo kept merged.
  unfold extendQuery. rewrite Hold. cbn [andb].
  rewrite query_of_after_first, Hpn, base_before_first.
  assert (Hparsed :
    match oldUrl with
    | Missing => Ok []
    | Url s => parse_query (query_of s)
    | Params o => Ok o
    end = Ok po).
  { destruct oldUrl as [|s|o]; try exact Hpo.
    simpl in Hpo. now rewrite query_of_after_first. }
  rewrite Hparsed. subst merged kept. cbv zeta.
  f_equal. destruct (extend _ pn) as [|kv merged'].
  - simpl. now rewrite app_nil_r.
  - simpl. destruct (qs_stringify (kv :: merged')); reflexivity.
Qed.

(** C5: when [oldUrl] is empty the result is the empty string for a
    [newUrl] that is missing or empty, and [newUrl] itself otherwise; the
    argument is not touched. *)
Theorem extendQuery_empty_oldUrl (oldUrl : url_arg)
    (forcedRenewParam : option jstr) :
  isEmpty oldUrl = true ->
  extendQuery None oldUrl forcedRenewParam = (Ok [], oldUrl)
  /\ extendQuery (Some []) oldUrl forcedRenewParam = (Ok [], oldUrl)
  /\ (forall c s,
        extendQuery (Some (c :: s)) oldUrl forcedRenewParam
        = (Ok (c :: s), oldUrl)).
Proof.
  intros Hold. unfold extendQuery. rewrite Hold. simpl. auto.
Qed.

(** C1: for a new and an old URL that both have a query, with parameters
    in at least one of them, the result is the part of [newUrl] before its
    first [?], then [?] and the serialization of the merged mapping; in the
    merged mapping a name has the value the new query gives it, or else
    the one of the old query. *)
Theorem extendQuery_merges_queries (nb nq ob oq : jstr) (pn po : obj) :
  forallb (fun c => negb (c =? 63)) nb = true ->
  forallb (fun c => negb (c =? 63)) ob = true ->
  parse_query nq = Ok pn ->
  parse_query oq = Ok po ->
  pn <> [] \/ po <> [] ->
  let merged := extend po pn in
  (forall k, get_own k merged = merged_lookup po pn k)
  /\ fst (extendQuery (Some (nb ++ 63 :: nq)) (Url (ob ++ 63 :: oq)) None)
     = (q <- qs_stringify merged ;; Ok (nb ++ 63 :: q)).
Proof.
  intros Hnb Hob Hpn Hpo Hne merged.
  assert (Hord : ordinary pn = true).
  { unfold parse_query in Hpn. destruct nq.
    - now inversion Hpn.
    - eapply qs_parse_ordinary, Hpn. }
  split.
  - intros k. now apply get_own_extend.
  - destruct (before_first_app 63 nb nq Hnb) as [Hb Ha].
    destruct (before_first_app 63 ob oq Hob) as [_ Ha'].
    rewrite (extendQuery_not_empty _ _ None pn po).
    + cbn [fst]. fold merged. rewrite Hb.
      destruct merged as [|kv m] eqn:E; [|reflexivity].
      exfalso. destruct Hne as [Hne|Hne].
      * now apply (extend_not_empty_new pn po Hord Hne).
      * now apply (extend_not_empty_old pn po Hne).
    + destruct ob; reflexivity.
    + now rewrite Ha.
    + simpl. now rewrite Ha'.
Qed.

(** C3, for a key that is not the empty string: the key is removed from
    the old mapping before the merge, so that the merged mapping has it
    exactly when the new query supplies it, the other names being merged
    as usual. For an [oldUrl] that is not empty the result is the part of
    [newUrl] before its first [?], followed by [?] and the serialization of
    the merged mapping when this mapping is not empty, and by nothing when
    it is; for an empty [oldUrl] the result is [newUrl]. *)
Theorem extendQuery_forced_param (newUrl : jstr) (oldUrl : url_arg)
    (k : jstr) (pn po : obj) :
  k <> [] ->
  parse_query (after_first 63 newUrl) = Ok pn ->
  old_parameters oldUrl = Ok po ->
  let merged := extend (obj_delete k po) pn in
  get_own k merged = get_own k pn
  /\ (forall k', k' <> k -> get_own k' merged = merged_lookup po pn k')
  /\ fst (extendQuery (Some newUrl) oldUrl (Some k))
     = if isEmpty oldUrl then Ok newUrl
       else
         match merged with
         | [] => Ok (before_first 63 newUrl)
         | _ => q <- qs_stringify merged ;;
                Ok (before_first 63 newUrl ++ 63 :: q)
         end.
Proof.
  intros Hk Hpn Hpo merged.
  assert (Hord : ordinary pn = true).
  { unfold parse_query in Hpn. destruct (after_first 63 newUrl).
    - now inversion Hpn.
    - eapply qs_parse_ordinary, Hpn. }
  repeat split.
  - unfold merged. rewrite get_own_extend by assumption.
    unfold merged_lookup. rewrite get_own_obj_delete, jstr_eqb_refl.
    destruct (get_own k pn); reflexivity.
  - intros k' Hk'. unfold merged. rewrite get_own_extend by assumption.
    unfold merged_lookup. rewrite get_own_obj_delete.
    destruct (jstr_eqb k k') eqn:E; [|reflexivity].
    apply jstr_eqb_eq in E. congruence.
  - destruct (isEmpty oldUrl) eqn:Hold.
    + unfold extendQuery. rewrite Hold. now destruct newUrl.
    + rewrite (extendQuery_not_empty _ _ (Some k) pn po) by assumption.
      destruct k; [congruence|]. reflexivity.
Qed.

End ExtendQueryProperties.

(** ** The querystring module as written *)

Lemma has_own_replace_value (k k' : jstr) (v : value) (o : obj) :
  has_own k' (replace_value k v o) = has_own k' o.
Proof.
  unfold has_own. induction o as [|[k0 v0] o IH]; [reflexivity|].
  simpl. destruct (jstr_eqb k0 k); simpl.
  - destruct (jstr_eqb k0 k'); reflexivity.
  - destruct (jstr_eqb k0 k'); [reflexivity|exact IH].
Qed.

Lemma distinct_keys_replace_value (k : jstr) (v : value) (o : obj) :
  distinct_keys o = true -> distinct_keys (replace_value k v o) = true.
Proof.
  induction o as [|[k0 v0] o IH]; [reflexivity|].
  simpl. intros H. apply andb_true_iff in H as [H0 H].
  destruct (jstr_eqb k0 k); simpl.
  - now rewrite H0, H.
  - now rewrite has_own_replace_value, H0, IH.
Qed.

Lemma distinct_keys_insert_index (n : Z) (k : jstr) (v : value) (o : obj) :
  has_own k o = false -> distinct_keys o = true ->
  distinct_keys (insert_index n k v o) = true.
Proof.
  induction o as [|[k0 v0] o IH]; intros Hk Ho; [reflexivity|].
  pose proof Hk as Hk'. apply has_own_cons_false in Hk' as [E0 Hk'].
  cbn [distinct_keys] in Ho. apply andb_true_iff in Ho as [H0 Ho].
  assert (Hhere : distinct_keys ((k, v) :: (k0, v0) :: o) = true).
  { cbn [distinct_keys]. now rewrite Hk, H0, Ho. }
  cbn [insert_index].
  destruct (array_index k0) as [m|]; [destruct (m <? n)|]; try exact Hhere.
  cbn [distinct_keys]. rewrite (IH Hk' Ho), andb_true_r.
  unfold has_own. rewrite get_own_insert_index by assumption.
  rewrite jstr_eqb_sym, E0. exact H0.
Qed.

Lemma distinct_keys_app (k : jstr) (v : value) (o : obj) :
  has_own k o = false -> distinct_keys o = true ->
  distinct_keys (o ++ [(k, v)]) = true.
Proof.
  induction o as [|[k0 v0] o IH]; intros Hk Ho; [reflexivity|].
  apply has_own_cons_false in Hk as [E0 Hk].
  cbn [distinct_keys] in Ho. apply andb_true_iff in Ho as [H0 Ho].
  cbn [app distinct_keys]. rewrite (IH Hk Ho), andb_true_r.
  unfold has_own. rewrite get_own_app by assumption.
  rewrite jstr_eqb_sym, E0. exact H0.
Qed.

Lemma ordinary_obj_set (k : jstr) (v : value) (o : obj) :
  jstr_eqb k (js "__proto__") = false ->
  ordinary o = true -> ordinary (obj_set k v o) = true.
Proof.
  unfold ordinary. intros Hk Ho.
  apply andb_true_iff in Ho as [Hd Hp].
  apply andb_true_iff. split.
  - unfold obj_set. destruct (has_own k o) eqn:E.
    + now apply distinct_keys_replace_value.
    + destruct (array_index k).
      * now apply distinct_keys_insert_index.
      * now apply distinct_keys_app.
  - unfold has_own in *. now rewrite get_own_obj_set, Hk.
Qed.

Lemma ordinary_obj_assign (k : jstr) (v : value) (o : obj) :
  ordinary o = true -> ordinary (obj_assign k v o) = true.
Proof.
  intros Ho. unfold obj_assign.
  destruct (jstr_eqb k (js "__proto__")) eqn:E; [exact Ho|].
  now apply ordinary_obj_set.
Qed.

Lemma ordinary_qs_add (k v : jstr) (o : obj) :
  ordinary o = true -> ordinary (qs_add k v o) = true.
Proof.
  intros Ho. unfold qs_add.
  destruct (get_own k o) as [x|] eqn:E; [|now apply ordinary_obj_assign].
  destruct x; try now apply ordinary_obj_assign.
  unfold ordinary in *. apply andb_true_iff in Ho as [Hd Hp].
  now rewrite distinct_keys_replace_value, has_own_replace_value.
Qed.

Lemma classic_parse_parts_ordinary (parts : list jstr) :
  forall o o',
    classic_parse_parts parts o = Ok o' ->
    ordinary o = true -> ordinary o' = true.
Proof.
  induction parts as [|part parts IH]; intros o o' H Ho; simpl in H.
  - now inversion H; subst.
  - destruct (decodeURIComponent _) as [k|]; [|discriminate].
    simpl in H.
    destruct (decodeURIComponent _) as [v|]; [|discriminate].
    simpl in H. eapply IH; [exact H|]. now apply ordinary_qs_add.
Qed.

Lemma classic_parse_ordinary (s : jstr) (o : obj) :
  classic_parse s = Ok o -> ordinary o = true.
Proof.
  unfold classic_parse. destruct s.
  - now inversion 1.
  - intros H. eapply classic_parse_parts_ordinary; [exact H|reflexivity].
Qed.

(** The module [querystring] as packaged for browsers. *)
#[export] Instance classic_querystring : QueryString := {|
  qs_parse := classic_parse;
  qs_stringify := classic_stringify;
  qs_parse_ordinary := classic_parse_ordinary
|}.

(** ** extendQuery on the examples *)

Example extendQuery_example_merge :
  extendQuery (Some (js "/path?b=2")) (Url (js "/old?a=1&b=9")) None
  = (Ok (js "/path?a=1&b=2"), Url (js "/old?a=1&b=9")).
Proof. vm_compute. reflexivity. Qed.

Example extendQuery_example_forced :
  extendQuery (Some (js "/path")) (Url (js "/old?a=1")) (Some (js "a"))
  = (Ok (js "/path"), Url (js "/old?a=1")).
Proof. vm_compute. reflexivity. Qed.

Lemma extendQuery_empty_oldUrl_witness :
  extendQuery None Missing None = (Ok [], Missing)
  /\ extendQuery (Some (js "/path")) (Url []) None = (Ok (js "/path"), Url []).
Proof.
  split.
  - exact (proj1 (extendQuery_empty_oldUrl Missing None eq_refl)).
  - exact (proj2 (proj2 (extendQuery_empty_oldUrl (Url []) None eq_refl)) _ _).
Defined.

Lemma extendQuery_merges_queries_witness :
  fst (extendQuery (Some (js "/path?b=2")) (Url (js "/old?a=1&b=9")) None)
  = Ok (js "/path?a=1&b=2").
Proof.
  refine (proj2 (extendQuery_merges_queries
                   (js "/path") (js "b=2") (js "/old") (js "a=1&b=9")
                   [(js "b", VStr (js "2"))]
                   [(js "a", VStr (js "1")); (js "b", VStr (js "9"))]
                   _ _ _ _ _)).
  - reflexivity.
  - reflexivity.
  - reflexivity.
  - reflexivity.
  - left. discriminate.
Defined.

Lemma extendQuery_forced_param_witness :
  fst (extendQuery (Some (js "/path")) (Url (js "/old?a=1")) (Some (js "a")))
  = Ok (js "/path").
Proof.
  refine (proj2 (proj2 (extendQuery_forced_param
                          (js "/path") (Url (js "/old?a=1")) (js "a")
                          [] [(js "a", VStr (js "1"))] _ _ _))).
  - discriminate.
  - reflexivity.
  - reflexivity.
Defined.

(** C3 as stated, for every key, fails at the empty key: an empty
    [forcedRenewParam] is falsy, nothing is deleted, and the parameter of
    the old mapping named by the empty string is in the result although
    [newUrl] has no query. *)
Lemma extendQuery_empty_key_kept :
  extendQuery (Some (js "/path")) (Url (js "/old?=1")) (Some [])
  = (Ok (js "/path?=1"), Url (js "/old?=1"))
  /\ extendQuery (Some (js "/path")) (Params [([], VStr (js "1"))]) (Some [])
     = (Ok (js "/path?=1"), Params [([], VStr (js "1"))]).
Proof. split; vm_compute; reflexivity. Qed.

(** C2 does not hold of the code: an object passed as [oldUrl] is the
    object the merge is made in. After the call below the object of the
    caller, which held [a] only, holds [b] as well. *)
Lemma extendQuery_changes_caller_object :
  extendQuery (Some (js "/path?b=2")) (Params [(js "a", VStr (js "1"))]) None
  = (Ok (js "/path?a=1&b=2"),
     Params [(js "a", VStr (js "1")); (js "b", VStr (js "2"))]).
Proof. vm_compute. reflexivity. Qed.

(** ** Missing arguments *)



(** ** The URI codec *)

Ltac bool_to_prop :=
  repeat match goal with
    | H : _ && _ = true |- _ => apply andb_true_iff in H; destruct H
    | H : _ || _ = false |- _ => apply orb_false_iff in H; destruct H
    | H : negb _ = true |- _ => apply negb_true_iff in H
    | H : negb _ = false |- _ => apply negb_false_iff in H
    | H : (_ <=? _) = true |- _ => apply Z.leb_le in H
    | H : (_ <=? _) = false |- _ => apply Z.leb_gt in H
    | H : (_ <? _) = true |- _ => apply Z.ltb_lt in H
    | H : (_ <? _) = false |- _ => apply Z.ltb_ge in H
    | H : (_ =? _) = true |- _ => apply Z.eqb_eq in H
    | H : (_ =? _) = false |- _ => apply Z.eqb_neq in H
    end.

Ltac decide_cmp :=
  repeat (match goal with
          | |- context [?a <=? ?b] => destruct (Z.leb_spec a b); try lia
          | |- context [?a <? ?b] => destruct (Z.ltb_spec a b); try lia
          | |- context [?a =? ?b] => destruct (Z.eqb_spec a b); try lia
          end; cbn [andb orb negb]).

Lemma hex_digit_cases (d : Z) :
  0 <= d < 16 ->
  hex_value (hex_digit d) = Some d /\ uri_safe (hex_digit d) = true.
Proof.
  intros Hd.
  assert (C : d = 0 \/ d = 1 \/ d = 2 \/ d = 3 \/ d = 4 \/ d = 5 \/ d = 6
              \/ d = 7 \/ d = 8 \/ d = 9 \/ d = 10 \/ d = 11 \/ d = 12
              \/ d = 13 \/ d = 14 \/ d = 15) by lia.
  repeat (destruct C as [->|C]; [split; reflexivity|]).
  subst. split; reflexivity.
Qed.

Lemma octet_digits (b : Z) :
  0 <= b < 256 -> 0 <= b / 16 < 16 /\ 0 <= b mod 16 < 16 /\ 16 * (b / 16) + b mod 16 = b.
Proof. intros Hb. Z.div_mod_to_equations. lia. Qed.

Lemma read_pct_octet (b : Z) (rest : jstr) :
  0 <= b < 256 -> read_octet (pct_octet b ++ rest) = Some (b, rest).
Proof.
  intros Hb. destruct (octet_digits b Hb) as (Hh & Hl & Hsum).
  unfold pct_octet. cbn [app read_octet]. rewrite Z.eqb_refl.
  rewrite (proj1 (hex_digit_cases _ Hh)), (proj1 (hex_digit_cases _ Hl)).
  now rewrite Hsum.
Qed.

Lemma pct_octet_safe (b : Z) :
  0 <= b < 256 -> forallb uri_safe (pct_octet b) = true.
Proof.
  intros Hb. destruct (octet_digits b Hb) as (Hh & Hl & _).
  unfold pct_octet. cbn [forallb].
  rewrite (proj2 (hex_digit_cases _ Hh)), (proj2 (hex_digit_cases _ Hl)).
  reflexivity.
Qed.

Lemma read_octet_length (s rest : jstr) (b : Z) :
  read_octet s = Some (b, rest) ->
  length s = S (S (S (length rest))) /\ exists s', s = 37 :: s'.
Proof.
  destruct s as [|p [|h [|l s]]]; try discriminate. simpl.
  destruct (Z.eqb_spec p 37); [|discriminate].
  destruct (hex_value h), (hex_value l); try discriminate.
  intros H. inversion H; subst. split; [reflexivity|]. now eexists.
Qed.

Lemma read_continuation_length (n : nat) :
  forall (s rest : jstr) (bs : list Z),
    read_continuation n s = Some (bs, rest) -> (length rest <= length s)%nat.
Proof.
  induction n as [|n IH]; intros s rest bs H; simpl in H.
  - inversion H; subst. lia.
  - destruct (read_octet s) as [[b r]|] eqn:E; [|discriminate].
    apply read_octet_length in E as [E _].
    destruct ((128 <=? b) && (b <? 192)); [|discriminate].
    destruct (read_continuation n r) as [[bs' r']|] eqn:E'; [|discriminate].
    inversion H; subst. apply IH in E'. lia.
Qed.

Lemma decode_go_fuel (fuel1 : nat) :
  forall (fuel2 : nat) (s : jstr),
    (length s <= fuel1)%nat -> (length s <= fuel2)%nat ->
    decode_go fuel1 s = decode_go fuel2 s.
Proof.
  induction fuel1 as [|fuel1 IH]; intros fuel2 s H1 H2.
  - destruct s; [|simpl in H1; lia]. now destruct fuel2.
  - destruct s as [|c s]; [now destruct fuel2|].
    destruct fuel2 as [|fuel2]; [simpl in H2; lia|].
    cbn [decode_go]. simpl in H1, H2.
    destruct (negb (c =? 37)).
    + rewrite (IH fuel2 s) by lia. reflexivity.
    + destruct (read_octet (c :: s)) as [[b rest]|] eqn:E; [|reflexivity].
      apply read_octet_length in E as [E _]. simpl in E.
      destruct (b <? 128).
      * rewrite (IH fuel2 rest) by lia. reflexivity.
      * destruct (continuation_count b) as [n|]; [|reflexivity].
        destruct (read_continuation n rest) as [[bs rest']|] eqn:E';
          [|reflexivity].
        apply read_continuation_length in E'.
        destruct (utf8_code_point b bs); [|reflexivity].
        rewrite (IH fuel2 rest') by lia. reflexivity.
Qed.

(** The two steps of the decoder. *)
Lemma decode_go_plain (fuel : nat) (c : Z) (s : jstr) :
  c <> 37 -> (length (c :: s) <= fuel)%nat ->
  decode_go fuel (c :: s) = (r <- decode_go fuel s ;; Ok (c :: r)).
Proof.
  intros Hc Hf. destruct fuel as [|fuel]; [simpl in Hf; lia|].
  rewrite (decode_go_fuel (S fuel) fuel s) by (simpl in Hf; lia).
  cbn [decode_go]. destruct (Z.eqb_spec c 37); [congruence|]. reflexivity.
Qed.

Lemma decode_go_octet (fuel : nat) (s rest : jstr) (b : Z) :
  read_octet s = Some (b, rest) -> (length s <= fuel)%nat ->
  decode_go fuel s
  = if b <? 0x80 then r <- decode_go fuel rest ;; Ok (b :: r)
    else
      match continuation_count b with
      | None => Throw URIError
      | Some n =>
          match read_continuation n rest with
          | None => Throw URIError
          | Some (bs, rest') =>
              match utf8_code_point b bs with
              | None => Throw URIError
              | Some v => r <- decode_go fuel rest' ;; Ok (utf16_units v ++ r)
              end
          end
      end.
Proof.
  intros E Hf. destruct (read_octet_length _ _ _ E) as [Hlen [s' ->]].
  destruct fuel as [|fuel]; [simpl in Hf; lia|].
  cbn [decode_go]. rewrite Z.eqb_refl. cbn [negb]. rewrite E.
  simpl in Hlen, Hf.
  destruct (b <? 128).
  - rewrite (decode_go_fuel fuel (S fuel) rest) by lia. reflexivity.
  - destruct (continuation_count b) as [n|]; [|reflexivity].
    destruct (read_continuation n rest) as [[bs rest']|] eqn:E';
      [|reflexivity].
    apply read_continuation_length in E'.
    destruct (utf8_code_point b bs); [|reflexivity].
    rewrite (decode_go_fuel fuel (S fuel) rest') by lia. reflexivity.
Qed.

Lemma read_continuation_one (b : Z) (n : nat) (s : jstr) :
  0x80 <= b < 0xC0 ->
  read_continuation (S n) (pct_octet b ++ s)
  = match read_continuation n s with
    | Some (bs, rest) => Some (b :: bs, rest)
    | None => None
    end.
Proof.
  intros Hb. cbn [read_continuation]. rewrite read_pct_octet by lia.
  decide_cmp. reflexivity.
Qed.

Lemma pct_octets_cons (b : Z) (bs : list Z) (rest : jstr) :
  pct_octets (b :: bs) ++ rest = pct_octet b ++ pct_octets bs ++ rest.
Proof. unfold pct_octets. cbn [map concat]. symmetry. apply app_assoc. Qed.

Lemma utf8_octets_range (v : Z) :
  scalar v -> Forall (fun b => 0 <= b < 256) (utf8_octets v).
Proof.
  intros Hv. unfold utf8_octets, scalar in *.
  decide_cmp; repeat constructor; Z.div_mod_to_equations; lia.
Qed.

Lemma pct_octets_safe (bs : list Z) :
  Forall (fun b => 0 <= b < 256) bs -> forallb uri_safe (pct_octets bs) = true.
Proof.
  induction 1 as [|b bs Hb _ IH]; [reflexivity|].
  unfold pct_octets in *. cbn [map concat].
  rewrite forallb_app, IH, pct_octet_safe by assumption. reflexivity.
Qed.

(** The octets of a code point are read back as the code point. *)
Lemma decode_go_code_point (v : Z) (rest : jstr) (fuel : nat) :
  scalar v ->
  (length (pct_octets (utf8_octets v) ++ rest) <= fuel)%nat ->
  decode_go fuel (pct_octets (utf8_octets v) ++ rest)
  = (r <- decode_go fuel rest ;; Ok (utf16_units v ++ r)).
Proof.
  intros Hv. unfold scalar in Hv. unfold utf8_octets, continuation_count.
  destruct (Z.ltb_spec v 0x80) as [H1|H1];
    [|destruct (Z.ltb_spec v 0x800) as [H2|H2];
      [|destruct (Z.ltb_spec v 0x10000) as [H3|H3]]];
    rewrite !pct_octets_cons; intros Hf.
  - rewrite (decode_go_octet fuel _ _ v (read_pct_octet v _ ltac:(lia)))
      by exact Hf.
    unfold utf16_units. decide_cmp. all: reflexivity.
  - assert (Hd : v = 64 * (v / 64) + v mod 64 /\ 0 <= v mod 64 < 64)
      by (Z.div_mod_to_equations; lia).
    remember (v / 64) as a eqn:Ea. remember (v mod 64) as b eqn:Eb.
    clear Ea Eb. destruct Hd as [Hd Hb].
    rewrite (decode_go_octet fuel _ _ _ (read_pct_octet (192 + a) _ ltac:(lia)))
      by exact Hf.
    unfold continuation_count. decide_cmp.
    rewrite read_continuation_one by lia.
    cbn [read_continuation pct_octets map concat app utf8_code_point].
    replace ((192 + a - 192) * 64 + (128 + b - 128)) with v by lia.
    unfold utf16_units. decide_cmp. all: reflexivity.
  - assert (Hd : v = 4096 * (v / 4096) + 64 * ((v / 64) mod 64) + v mod 64
                 /\ 0 <= (v / 64) mod 64 < 64 /\ 0 <= v mod 64 < 64)
      by (Z.div_mod_to_equations; lia).
    remember (v / 4096) as a eqn:Ea. remember ((v / 64) mod 64) as b eqn:Eb.
    remember (v mod 64) as c eqn:Ec.
    clear Ea Eb Ec. destruct Hd as (Hd & Hb & Hc).
    rewrite (decode_go_octet fuel _ _ _ (read_pct_octet (224 + a) _ ltac:(lia)))
      by exact Hf.
    unfold continuation_count. decide_cmp.
    rewrite !read_continuation_one by lia.
    cbn [read_continuation pct_octets map concat app utf8_code_point].
    replace ((224 + a - 224) * 4096 + (128 + b - 128) * 64 + (128 + c - 128))
      with v by lia.
    unfold utf16_units. decide_cmp. all: reflexivity.
  - assert (Hd : v = 262144 * (v / 262144) + 4096 * ((v / 4096) mod 64)
                     + 64 * ((v / 64) mod 64) + v mod 64
                 /\ 0 <= (v / 4096) mod 64 < 64
                 /\ 0 <= (v / 64) mod 64 < 64 /\ 0 <= v mod 64 < 64)
      by (Z.div_mod_to_equations; lia).
    remember (v / 262144) as a eqn:Ea.
    remember ((v / 4096) mod 64) as b eqn:Eb.
    remember ((v / 64) mod 64) as c eqn:Ec.
    remember (v mod 64) as d eqn:Ed.
    clear Ea Eb Ec Ed. destruct Hd as (Hd & Hb & Hc & Hd').
    rewrite (decode_go_octet fuel _ _ _ (read_pct_octet (240 + a) _ ltac:(lia)))
      by exact Hf.
    unfold continuation_count. decide_cmp.
    rewrite !read_continuation_one by lia.
    cbn [read_continuation pct_octets map concat app utf8_code_point].
    replace ((240 + a - 240) * 262144 + (128 + b - 128) * 4096
             + (128 + c - 128) * 64 + (128 + d - 128))
      with v by lia.
    unfold utf16_units. decide_cmp.
    all: repeat f_equal; Z.div_mod_to_equations; lia.
Qed.

Lemma uri_unescaped_range (c : Z) :
  uri_unescaped c = true ->
  33 <= c <= 126 /\ c <> 37 /\ c <> 38 /\ c <> 61.
Proof.
  unfold uri_unescaped, is_digit. cbn [existsb].
  rewrite !orb_true_iff, !andb_true_iff, !Z.leb_le, !Z.eqb_eq. lia.
Qed.

Lemma uri_safe_range (c : Z) :
  uri_safe c = true -> 33 <= c <= 126 /\ c <> 38 /\ c <> 61.
Proof.
  unfold uri_safe. rewrite orb_true_iff, Z.eqb_eq.
  intros [H| ->]; [apply uri_unescaped_range in H|]; lia.
Qed.

Lemma utf16_units_pair (hi lo : Z) :
  is_high_surrogate hi = true -> is_low_surrogate lo = true ->
  scalar (pair_code_point hi lo)
  /\ utf16_units (pair_code_point hi lo) = [hi; lo].
Proof.
  unfold is_high_surrogate, is_low_surrogate, pair_code_point, scalar,
    utf16_units.
  intros Hh Hl. bool_to_prop. split; [lia|].
  decide_cmp; repeat f_equal; Z.div_mod_to_equations; lia.
Qed.

(** [decodeURIComponent] undoes [encodeURIComponent], whose result is made
    of unescaped characters and [%]. *)
Lemma encode_decode_bounded (n : nat) :
  forall s : jstr,
    (length s <= n)%nat -> well_formed s = true ->
    exists e,
      encodeURIComponent s = Ok e
      /\ forallb uri_safe e = true
      /\ (forall fuel, (length e <= fuel)%nat -> decode_go fuel e = Ok s).
Proof.
  induction n as [|n IH]; intros s Hn Hwf.
  - destruct s; [|simpl in Hn; lia].
    exists []. repeat split. intros fuel _. now destruct fuel.
  - destruct s as [|c s]; [exists []; repeat split; intros fuel _; now destruct fuel|].
    simpl in Hn. cbn [encodeURIComponent well_formed] in *.
    destruct (uri_unescaped c) eqn:Hu.
    + pose proof (uri_unescaped_range c Hu) as Hc.
      assert (Hhigh : is_high_surrogate c = false)
        by (unfold is_high_surrogate; decide_cmp; reflexivity).
      rewrite Hhigh in Hwf. bool_to_prop.
      destruct (IH s ltac:(lia) ltac:(assumption)) as (e & He & Hsafe & Hdec).
      exists (c :: e). rewrite He. repeat split.
      * cbn [forallb]. unfold uri_safe at 1. now rewrite Hu, Hsafe.
      * intros fuel Hf. rewrite decode_go_plain by (assumption || lia).
        rewrite Hdec by (simpl in Hf; lia). reflexivity.
    + destruct (is_high_surrogate c) eqn:Hhigh.
      * destruct s as [|k s]; [discriminate|].
        apply andb_true_iff in Hwf as [Hlow Hwf].
        assert (Hnl : is_low_surrogate c = false).
        { unfold is_high_surrogate, is_low_surrogate in *. bool_to_prop.
          decide_cmp; reflexivity. }
        rewrite Hnl, Hlow. cbn [negb].
        destruct (utf16_units_pair c k Hhigh Hlow) as [Hscalar Hunits].
        simpl in Hn.
        destruct (IH s ltac:(lia) Hwf) as (e & He & Hsafe & Hdec).
        exists (pct_octets (utf8_octets (pair_code_point c k)) ++ e).
        rewrite He. repeat split.
        -- rewrite forallb_app, Hsafe, pct_octets_safe;
             [reflexivity|now apply utf8_octets_range].
        -- intros fuel Hf. rewrite decode_go_code_point by assumption.
           rewrite Hdec by (rewrite length_app in Hf; lia).
           simpl. now rewrite Hunits.
      * bool_to_prop.
        match goal with
        | Hl : is_low_surrogate c = false |- _ => rewrite Hl
        end.
        cbn [negb].
        assert (Hscalar : scalar c).
        { unfold scalar, is_high_surrogate, is_low_surrogate in *.
          bool_to_prop. lia. }
        destruct (IH s ltac:(lia) ltac:(assumption)) as (e & He & Hsafe & Hdec).
        exists (pct_octets (utf8_octets c) ++ e).
        rewrite He. repeat split.
        -- rewrite forallb_app, Hsafe, pct_octets_safe;
             [reflexivity|now apply utf8_octets_range].
        -- intros fuel Hf. rewrite decode_go_code_point by assumption.
           rewrite Hdec by (rewrite length_app in Hf; lia).
           unfold utf16_units. decide_cmp; reflexivity.
Qed.

Lemma encode_decode (s : jstr) :
  well_formed s = true ->
  exists e,
    encodeURIComponent s = Ok e
    /\ forallb uri_safe e = true
    /\ decodeURIComponent e = Ok s.
Proof.
  intros Hwf.
  destruct (encode_decode_bounded (length s) s (le_n _) Hwf)
    as (e & He & Hsafe & Hdec).
  exists e. repeat split; try assumption. now apply Hdec.
Qed.

(** ** split and join *)

Lemma strip_prefix_length (p : jstr) :
  forall s rest : jstr,
    strip_prefix p s = Some rest -> length s = (length p + length rest)%nat.
Proof.
  induction p as [|x p IH]; intros s rest H; simpl in H.
  - now inversion H.
  - destruct s as [|y s]; [discriminate|].
    destruct (x =? y); [|discriminate]. simpl. f_equal. now apply IH.
Qed.

Lemma split_go_fuel (sep : jstr) (fuel1 : nat) :
  sep <> [] ->
  forall (fuel2 : nat) (cur s : jstr),
    (length s <= fuel1)%nat -> (length s <= fuel2)%nat ->
    split_go fuel1 sep cur s = split_go fuel2 sep cur s.
Proof.
  intros Hsep. induction fuel1 as [|fuel1 IH]; intros fuel2 cur s H1 H2.
  - destruct s; [|simpl in H1; lia]. now destruct fuel2.
  - destruct s as [|c s]; [now destruct fuel2|].
    destruct fuel2 as [|fuel2]; [simpl in H2; lia|].
    cbn [split_go]. simpl in H1, H2.
    destruct (strip_prefix sep (c :: s)) as [rest|] eqn:E.
    + apply strip_prefix_length in E. simpl in E.
      destruct sep; [congruence|]. simpl in E.
      f_equal. apply IH; lia.
    + apply IH; lia.
Qed.

Lemma split_go_piece (p : jstr) :
  forallb (fun c => negb (c =? 38)) p = true ->
  forall (cur : jstr) (fuel : nat),
    (length p <= fuel)%nat -> split_go fuel [38] cur p = [cur ++ p].
Proof.
  induction p as [|c p IH]; intros Hp cur fuel Hf.
  - rewrite app_nil_r. now destruct fuel.
  - simpl in Hp. bool_to_prop.
    destruct fuel as [|fuel]; [simpl in Hf; lia|].
    cbn [split_go strip_prefix].
    destruct (Z.eqb_spec 38 c); [lia|].
    rewrite IH by (assumption || simpl in Hf; lia).
    now rewrite <- app_assoc.
Qed.

Lemma split_go_separator (p : jstr) :
  forallb (fun c => negb (c =? 38)) p = true ->
  forall (cur rest : jstr) (fuel : nat),
    (length (p ++ 38%Z :: rest) <= fuel)%nat ->
    split_go fuel [38] cur (p ++ 38 :: rest)
    = (cur ++ p) :: split_go fuel [38] [] rest.
Proof.
  assert (Hsep : [38] <> []) by discriminate.
  induction p as [|c p IH]; intros Hp cur rest fuel Hf;
    (destruct fuel as [|fuel]; [simpl in Hf; lia|]);
    rewrite (split_go_fuel [38] (S fuel) Hsep fuel [] rest)
      by (rewrite length_app in Hf; simpl in Hf; lia).
  - rewrite app_nil_r.
    cbn [app split_go strip_prefix]. rewrite Z.eqb_refl. reflexivity.
  - simpl in Hp. bool_to_prop.
    cbn [app split_go strip_prefix].
    destruct (Z.eqb_spec 38 c); [lia|].
    rewrite IH by (assumption || simpl in Hf; lia).
    rewrite <- app_assoc. reflexivity.
Qed.

(** Pieces without [&] are the parts of their joining. *)
Lemma split_join (parts : list jstr) :
  parts <> [] ->
  Forall (fun p => forallb (fun c => negb (c =? 38)) p = true) parts ->
  split (js "&") (join (js "&") parts) = parts.
Proof.
  change (js "&") with [38]. unfold split.
  intros Hne Hall.
  assert (G : forall fuel,
             parts <> [] ->
             (length (join [38%Z] parts) <= fuel)%nat ->
             split_go fuel [38] [] (join [38] parts) = parts).
  { clear Hne. induction Hall as [|p ps Hp Hps IH]; intros fuel Hne Hf; [now elim Hne|].
    destruct ps as [|q ps].
    - simpl in *. now rewrite split_go_piece.
    - change (join [38] (p :: q :: ps)) with (p ++ 38 :: join [38] (q :: ps)) in *.
      rewrite split_go_separator by assumption.
      cbn [app]. f_equal. apply IH; [discriminate|].
      rewrite length_app in Hf. cbn [length] in Hf. lia. }
  destruct parts as [|p ps]; [congruence|].
  apply G; [discriminate|lia].
Qed.

(** ** The pairs of a part *)

Lemma name_value_matches_pair (key enc : jstr) (fuel : nat) :
  key <> [] ->
  forallb (fun x => negb (x =? 61)) key = true ->
  forallb (fun x => negb (is_line_terminator x)) enc = true ->
  (length (key ++ 61%Z :: enc) <= fuel)%nat ->
  name_value_matches fuel (key ++ 61 :: enc) = [(key, enc)].
Proof.
  intros Hne Hkey Henc Hf.
  destruct key as [|c key]; [congruence|].
  destruct fuel as [|fuel]; [simpl in Hf; lia|].
  assert (Hc : (c =? 61) = false).
  { simpl in Hkey. bool_to_prop. now apply Z.eqb_neq. }
  change ((c :: key) ++ 61 :: enc) with (c :: key ++ 61 :: enc).
  cbn [name_value_matches]. rewrite Hc.
  change (c :: key ++ 61 :: enc) with ((c :: key) ++ 61 :: enc).
  rewrite span_app by (assumption || reflexivity).
  rewrite Z.eqb_refl.
  rewrite <- (app_nil_r enc) at 1.
  rewrite span_app by (assumption || reflexivity).
  now destruct fuel.
Qed.

(** ** The order of enumeration *)

Lemma get_own_app_list (k : jstr) (a b : obj) :
  get_own k (a ++ b)
  = match get_own k a with Some v => Some v | None => get_own k b end.
Proof.
  induction a as [|[k0 v0] a IH]; [reflexivity|].
  simpl. destruct (jstr_eqb k0 k); [reflexivity|exact IH].
Qed.

Lemma distinct_keys_fresh (k : jstr) (v : value) (a b : obj) :
  distinct_keys (a ++ (k, v) :: b) = true -> has_own k a = false.
Proof.
  induction a as [|[k0 v0] a IH]; [reflexivity|].
  cbn [app distinct_keys]. intros H. bool_to_prop.
  match goal with
  | Hf : has_own k0 _ = false |- _ =>
      unfold has_own in Hf; rewrite get_own_app_list in Hf; simpl in Hf
  end.
  unfold has_own in *. simpl.
  destruct (jstr_eqb k0 k) eqn:E.
  - apply jstr_eqb_eq in E. subst k0. rewrite jstr_eqb_refl in *.
    destruct (get_own k a); discriminate.
  - now apply IH.
Qed.

Lemma ordered_bound (a b : obj) (k : jstr) (v : value) (n : Z) :
  array_index k = Some n ->
  forall bound, ordered bound (a ++ (k, v) :: b) = true -> bound < n.
Proof.
  intros Hk. induction a as [|[k0 v0] a IH]; intros bound H.
  - simpl in H. rewrite Hk in H. bool_to_prop. lia.
  - cbn [app ordered] in H. destruct (array_index k0) as [m|].
    + bool_to_prop.
      match goal with Ho : ordered m _ = true |- _ => apply IH in Ho end.
      lia.
    + rewrite forallb_app in H. simpl in H. rewrite Hk in H.
      rewrite andb_false_r in H. discriminate.
Qed.

Lemma insert_index_last (a b : obj) (k : jstr) (v : value) (n : Z) :
  array_index k = Some n ->
  forall bound,
    ordered bound (a ++ (k, v) :: b) = true ->
    insert_index n k v a = a ++ [(k, v)].
Proof.
  intros Hk. induction a as [|[k0 v0] a IH]; intros bound H; [reflexivity|].
  cbn [app ordered insert_index] in *.
  destruct (array_index k0) as [m|].
  - bool_to_prop.
    match goal with
    | Ho : ordered m _ = true |- _ =>
        pose proof (ordered_bound _ _ _ _ _ Hk _ Ho); rewrite (IH _ Ho)
    end.
    destruct (Z.ltb_spec m n); [reflexivity|lia].
  - rewrite forallb_app in H. simpl in H. rewrite Hk in H.
    rewrite andb_false_r in H. discriminate.
Qed.

Lemma ordered_weaken (o : obj) :
  forall bound bound', bound' <= bound ->
    ordered bound o = true -> ordered bound' o = true.
Proof.
  destruct o as [|[k v] o]; intros bound bound' Hb H; [reflexivity|].
  simpl in *. destruct (array_index k); [|exact H].
  bool_to_prop. apply andb_true_iff. split; [apply Z.ltb_lt; lia|assumption].
Qed.

(** Properties assigned in the order of enumeration are created in that
    order. *)
Lemma extend_in_order (entries : obj) :
  forall acc bound,
    distinct_keys (acc ++ entries) = true ->
    ordered bound (acc ++ entries) = true ->
    forallb (fun kv => negb (jstr_eqb (fst kv) (js "__proto__"))) entries = true ->
    extend acc entries = acc ++ entries.
Proof.
  unfold extend.
  induction entries as [|[k v] entries IH]; intros acc bound Hd Ho Hp.
  - now rewrite app_nil_r.
  - cbn [fold_left fst snd forallb] in *. bool_to_prop.
    assert (Hstep : obj_assign k v acc = acc ++ [(k, v)]).
    { unfold obj_assign, obj_set.
      match goal with Hk : jstr_eqb k _ = false |- _ => rewrite Hk end.
      rewrite (distinct_keys_fresh _ _ _ _ Hd).
      destruct (array_index k) as [n|] eqn:Hk; [|reflexivity].
      eapply insert_index_last; eassumption. }
    rewrite Hstep.
    replace (acc ++ (k, v) :: entries) with ((acc ++ [(k, v)]) ++ entries) in *
      by (rewrite <- app_assoc; reflexivity).
    eapply IH; eassumption.
Qed.

(** ** state2uri and uri2state *)

Lemma uri_safe_plain (enc : jstr) :
  forallb uri_safe enc = true ->
  forallb (fun x => negb (is_line_terminator x)) enc = true
  /\ forallb (fun c => negb (c =? 38)) enc = true.
Proof.
  induction enc as [|c enc IH]; [auto|].
  cbn [forallb]. intros H. apply andb_true_iff in H as [Hc H].
  destruct (IH H) as [IH1 IH2]. rewrite IH1, IH2.
  apply uri_safe_range in Hc. unfold is_line_terminator. cbn [existsb].
  split; decide_cmp; reflexivity.
Qed.

Lemma key_ok_facts (k : jstr) :
  key_ok k = true ->
  k <> []
  /\ forallb (fun x => negb (x =? 61)) k = true
  /\ forallb (fun c => negb (c =? 38)) k = true
  /\ jstr_eqb k (js "__proto__") = false.
Proof.
  unfold key_ok. intros H. bool_to_prop.
  repeat split; try assumption.
  - destruct k; [discriminate|discriminate].
  - match goal with
    | Hf : forallb _ k = true |- _ =>
        clear - Hf; induction k as [|c k IH]; [reflexivity|];
        cbn [forallb] in *; bool_to_prop;
        rewrite IH by assumption; decide_cmp; reflexivity
    end.
  - match goal with
    | Hf : forallb _ k = true |- _ =>
        clear - Hf; induction k as [|c k IH]; [reflexivity|];
        cbn [forallb] in *; bool_to_prop;
        rewrite IH by assumption; decide_cmp; reflexivity
    end.
Qed.

(** The parts [state2uri] writes for entries with good keys and values are
    free of [&], and [uri2state] reads each of them back as one
    assignment. *)
Lemma parts_read_back (entries : obj) :
  forallb (fun kv => key_ok (fst kv) && value_ok (snd kv)) entries = true ->
  exists parts,
    state2uri_parts entries = Ok parts
    /\ Forall (fun p => forallb (fun c => negb (c =? 38)) p = true) parts
    /\ (forall acc, each_part parts acc = Ok (extend acc entries))
    /\ match entries with
       | [] => parts = []
       | (k, _) :: _ => exists enc rest, parts = (k ++ 61 :: enc) :: rest
       end.
Proof.
  induction entries as [|[k v] entries IH]; intros Hok.
  - exists []. repeat split. constructor.
  - cbn [forallb fst snd] in Hok.
    apply andb_true_iff in Hok as [Hkv Hok].
    apply andb_true_iff in Hkv as [Hk Hv].
    destruct (IH Hok) as (parts & Hparts & Hamp & Heach & _).
    destruct v as [| | | |s| |]; try discriminate. simpl in Hv.
    destruct (encode_decode s Hv) as (enc & Henc & Hsafe & Hdec).
    destruct (uri_safe_plain enc Hsafe) as [Hlt Hnoamp].
    destruct (key_ok_facts k Hk) as (Hne & Hnoeq & Hkamp & Hproto).
    exists ((k ++ 61 :: enc) :: parts).
    cbn [state2uri_parts to_string]. rewrite Henc, Hparts.
    repeat split.
    + constructor; [|assumption].
      rewrite forallb_app. cbn [forallb]. now rewrite Hkamp, Hnoamp.
    + intros acc. cbn [each_part].
      rewrite name_value_matches_pair by (assumption || lia).
      destruct k as [|c k]; [congruence|].
      cbn [app store_matches]. rewrite Hdec. cbn [bind].
      rewrite Heach. reflexivity.
    + now exists enc, parts.
Qed.

Lemma join_head (sep : jstr) (c : Z) (p : jstr) (parts : list jstr) :
  exists u, join sep ((c :: p) :: parts) = c :: u.
Proof.
  destruct parts; simpl; eauto.
Qed.

Lemma keys_not_proto (entries : obj) :
  forallb (fun kv => key_ok (fst kv) && value_ok (snd kv)) entries = true ->
  forallb (fun kv => negb (jstr_eqb (fst kv) (js "__proto__"))) entries = true.
Proof.
  induction entries as [|[k v] entries IH]; [reflexivity|].
  cbn [forallb fst snd]. intros H.
  apply andb_true_iff in H as [Hkv H].
  apply andb_true_iff in Hkv as [Hk _].
  destruct (key_ok_facts k Hk) as (_ & _ & _ & Hp).
  now rewrite Hp, IH.
Qed.

(** C4, for a state with string values and keys that can be read back:
    [state2uri] returns a URI, and [uri2state] makes of this URI the state
    itself, with its properties in the same order. The keys are not empty,
    have no [=] and no [&], differ from [__proto__], the first of them does
    not begin with [?]; the values have no surrogate out of a pair. *)
Theorem uri2state_state2uri (props : obj) :
  comes_back props = true ->
  exists uri,
    state2uri (VObj props) = Ok uri
    /\ uri2state (VStr uri) = Ok (VObj props).
Proof.
  unfold comes_back, enumeration_ok. intros H.
  apply andb_true_iff in H as [H Hfirst].
  apply andb_true_iff in H as [Henum Hok].
  apply andb_true_iff in Henum as [Hdistinct Hordered].
  destruct (parts_read_back props Hok) as (parts & Hparts & Hamp & Heach & Hhead).
  pose proof (keys_not_proto props Hok) as Hproto.
  exists (join (js "&") parts).
  unfold state2uri. cbn [for_in]. rewrite Hparts. split; [reflexivity|].
  destruct props as [|[k v] props].
  - subst parts. reflexivity.
  - destruct Hhead as (enc & rest & ->).
    assert (Hne : k <> []).
    { cbn [forallb fst] in Hok. bool_to_prop.
      now apply key_ok_facts. }
    destruct k as [|c k]; [congruence|].
    apply negb_true_iff in Hfirst.
    destruct (join_head (js "&") c (k ++ 61 :: enc) rest) as [u Hu].
    change ((c :: k) ++ 61 :: enc) with (c :: k ++ 61 :: enc) in *.
    assert (Hsplit : split (js "&") (c :: u)
                     = (c :: k ++ 61 :: enc) :: rest).
    { rewrite <- Hu. apply split_join; [discriminate|assumption]. }
    unfold uri2state. rewrite Hu. cbn [truthy negb]. rewrite Hfirst, Hsplit.
    rewrite Heach. cbn [bind]. do 2 f_equal.
    now apply (extend_in_order _ [] (-1)).
Qed.

Lemma uri2state_state2uri_witness :
  exists uri,
    state2uri (VObj [(js "x", VStr (js "1")); (js "y", VStr (js "two"))])
    = Ok uri
    /\ uri2state (VStr uri)
       = Ok (VObj [(js "x", VStr (js "1")); (js "y", VStr (js "two"))]).
Proof.
  exact (uri2state_state2uri
           [(js "x", VStr (js "1")); (js "y", VStr (js "two"))] eq_refl).
Defined.

Example state2uri_example :
  state2uri (VObj [(js "x", VStr (js "1")); (js "y", VStr (js "two"))])
  = Ok (js "x=1&y=two").
Proof. reflexivity. Qed.

Example uri2state_example :
  uri2state (VStr (js "x=1&y=two"))
  = Ok (VObj [(js "x", VStr (js "1")); (js "y", VStr (js "two"))]).
Proof. reflexivity. Qed.

(** C4 as stated fails for the empty key, which has none of the characters
    the claim excludes: [state2uri] writes [=v], in which [uri2state] reads
    a parameter named [v] with an empty value. *)
Lemma uri2state_state2uri_empty_key :
  state2uri (VObj [([], VStr (js "v"))]) = Ok (js "=v")
  /\ uri2state (VStr (js "=v")) = Ok (VObj [(js "v", VStr [])]).
Proof. split; reflexivity. Qed.

(** * Further properties *)

(** ** Logging *)

Lemma existsb_jstr_In (s : jstr) (l : list jstr) :
  existsb (jstr_eqb s) l = true <-> In s l.
Proof.
  rewrite existsb_exists. split.
  - intros (x & Hx & E). apply jstr_eqb_eq in E. now subst.
  - intros H. exists s. split; [assumption|apply jstr_eqb_refl].
Qed.

Lemma channel_indexOf_missing (channels : list jstr) (channel : value) :
  forall i,
    channel_indexOf channels channel i = -1
    \/ i <= channel_indexOf channels channel i.
Proof.
  induction channels as [|c channels IH]; intros i; [now left|].
  simpl. destruct (match channel with VStr s => jstr_eqb c s | _ => false end).
  - right. lia.
  - destruct (IH (i + 1)) as [H|H]; [now left|right; lia].
Qed.

Lemma channel_indexOf_listed (channels : list jstr) (channel : value) :
  forall i, 0 <= i ->
    channel_indexOf channels channel i <> -1
    <-> exists s, channel = VStr s /\ In s channels.
Proof.
  induction channels as [|c channels IH]; intros i Hi.
  - simpl. split; [congruence|]. intros (s & _ & []).
  - cbn [channel_indexOf].
    destruct (match channel with VStr s => jstr_eqb c s | _ => false end) eqn:E.
    + split; [|lia]. intros _. destruct channel; try discriminate.
      apply jstr_eqb_eq in E. subst. eexists. split; [reflexivity|now left].
    + rewrite (IH (i + 1)) by lia. split.
      * intros (s & Hs & Hin). exists s. split; [assumption|now right].
      * intros (s & Hs & [Hc|Hin]).
        -- subst. now rewrite jstr_eqb_refl in E.
        -- now exists s.
Qed.

(** X1: a channel is enabled exactly when [DEBUG] is set and the channel is
    a string that the configuration lists. *)
Theorem logEnabledFor_iff (env : surroundings) (channel : value) :
  logEnabledFor env channel = true
  <-> DEBUG env = true
      /\ exists s, channel = VStr s /\ In s (log_channels env).
Proof.
  unfold logEnabledFor. destruct (DEBUG env).
  - rewrite <- (channel_indexOf_listed _ channel 0) by lia.
    rewrite negb_true_iff, Z.eqb_neq. tauto.
  - split; [discriminate|]. intros [H _]. discriminate.
Qed.

Lemma logToChannel_call (env : surroundings) (channel : value) (type : jstr)
    (args : list value) (methods : list jstr) :
  type <> [] ->
  console env = Some methods ->
  In type methods ->
  logToChannel env (channel :: VStr type :: args)
  = Ok (if logEnabledFor env channel then [(type, args)] else []).
Proof.
  intros Hne Hc Hin. unfold logToChannel. cbn [nth skipn].
  destruct type as [|c type]; [congruence|]. cbn [truthy to_string].
  destruct (logEnabledFor env channel) eqn:E.
  - assert (Hd : DEBUG env = true)
      by (unfold logEnabledFor in E; destruct (DEBUG env); congruence).
    rewrite Hd, Hc. apply existsb_jstr_In in Hin. now rewrite Hin.
  - destruct (DEBUG env); reflexivity.
Qed.

(** X2: with a console that has the method [log], [log(channel, ...)] calls
    this method once with the arguments that follow the channel when the
    channel is enabled, and makes no call when it is not. *)
Theorem log_calls_console (env : surroundings) (channel : value)
    (rest : list value) (methods : list jstr) :
  console env = Some methods ->
  In (js "log") methods ->
  log env (channel :: rest)
  = Ok (if logEnabledFor env channel then [(js "log", rest)] else []).
Proof.
  intros Hc Hin. unfold log. cbn [firstn skipn app].
  now apply (logToChannel_call env channel (js "log") rest methods).
Qed.

Lemma log_calls_console_witness :
  log {| DEBUG := true; log_channels := [js "net"; js "ui"];
         console := Some [js "log"; js "warn"; js "error"] |}
      [VStr (js "ui"); VStr (js "ready");
       VNum {| number_value := 3; number_safe := eq_refl |}]
  = Ok [(js "log", [VStr (js "ready");
                    VNum {| number_value := 3; number_safe := eq_refl |}])].
Proof.
  exact (log_calls_console
           {| DEBUG := true; log_channels := [js "net"; js "ui"];
              console := Some [js "log"; js "warn"; js "error"] |}
           (VStr (js "ui"))
           [VStr (js "ready");
            VNum {| number_value := 3; number_safe := eq_refl |}]
           [js "log"; js "warn"; js "error"]
           eq_refl (or_introl eq_refl)).
Defined.

(** X3: [warn] and [error] go through the channels named [warn] and
    [error]: all their arguments are passed to the method of that name when
    the configuration lists the channel, and nothing is written when it does
    not. *)
Theorem warn_error_channels (env : surroundings) (arguments : list value)
    (methods : list jstr) :
  console env = Some methods ->
  (In (js "warn") methods ->
   warn env arguments
   = Ok (if logEnabledFor env (VStr (js "warn"))
         then [(js "warn", arguments)] else []))
  /\ (In (js "error") methods ->
      error env arguments
      = Ok (if logEnabledFor env (VStr (js "error"))
            then [(js "error", arguments)] else [])).
Proof.
  intros Hc. split; intros Hin.
  - now apply (logToChannel_call env _ (js "warn") arguments methods).
  - now apply (logToChannel_call env _ (js "error") arguments methods).
Qed.

Lemma warn_error_channels_witness :
  warn {| DEBUG := true; log_channels := [js "net"];
          console := Some [js "log"; js "warn"; js "error"] |}
       [VStr (js "slow")]
  = Ok []
  /\ error {| DEBUG := true; log_channels := [js "error"];
              console := Some [js "log"; js "warn"; js "error"] |}
           [VStr (js "lost")]
     = Ok [(js "error", [VStr (js "lost")])].
Proof.
  split.
  - exact (proj1 (warn_error_channels
                    {| DEBUG := true; log_channels := [js "net"];
                       console := Some [js "log"; js "warn"; js "error"] |}
                    [VStr (js "slow")] _ eq_refl)
             (or_intror (or_introl eq_refl))).
  - exact (proj2 (warn_error_channels
                    {| DEBUG := true; log_channels := [js "error"];
                       console := Some [js "log"; js "warn"; js "error"] |}
                    [VStr (js "lost")] _ eq_refl)
             (or_intror (or_intror (or_introl eq_refl)))).
Defined.

(** X4: [log] called without argument takes [log] itself for the channel
    and, no type being left, the type [debug]: with a console that has the
    method [debug], it calls this method without argument when the channel
    [log] is enabled. *)
Theorem log_without_arguments (env : surroundings) (methods : list jstr) :
  console env = Some methods ->
  In (js "debug") methods ->
  log env []
  = Ok (if logEnabledFor env (VStr (js "log")) then [(js "debug", [])] else []).
Proof.
  intros Hc Hin. unfold log, logToChannel. cbn [firstn skipn app nth truthy].
  cbn [to_string].
  destruct (logEnabledFor env (VStr (js "log"))) eqn:E.
  - assert (Hd : DEBUG env = true)
      by (unfold logEnabledFor in E; destruct (DEBUG env); congruence).
    rewrite Hd, Hc. apply existsb_jstr_In in Hin. now rewrite Hin.
  - destruct (DEBUG env); reflexivity.
Qed.

Lemma log_without_arguments_witness :
  log {| DEBUG := true; log_channels := [js "log"];
         console := Some [js "log"; js "debug"] |} []
  = Ok [(js "debug", [])].
Proof.
  exact (log_without_arguments
           {| DEBUG := true; log_channels := [js "log"];
              console := Some [js "log"; js "debug"] |}
           [js "log"; js "debug"] eq_refl (or_intror (or_introl eq_refl))).
Defined.

(** X5: without [DEBUG], or without a console, the three logging functions
    write nothing and raise nothing, whatever their arguments and the
    configuration. *)
Theorem logging_silent (env : surroundings) (arguments : list value) :
  DEBUG env = false \/ console env = None ->
  log env arguments = Ok []
  /\ warn env arguments = Ok []
  /\ error env arguments = Ok [].
Proof.
  intros H. unfold log, warn, error, logToChannel.
  destruct H as [H|H]; rewrite H.
  - auto.
  - repeat split;
      destruct (DEBUG env); try reflexivity;
      match goal with
      | |- context [logEnabledFor ?e ?c] => destruct (logEnabledFor e c)
      end; reflexivity.
Qed.

Lemma logging_silent_witness :
  log {| DEBUG := false; log_channels := [js "ui"];
         console := Some [js "log"] |} [VStr (js "ui"); VStr (js "x")]
  = Ok []
  /\ warn {| DEBUG := true; log_channels := [js "warn"]; console := None |}
          [VStr (js "x")]
     = Ok [].
Proof.
  split.
  - exact (proj1 (logging_silent
                    {| DEBUG := false; log_channels := [js "ui"];
                       console := Some [js "log"] |}
                    [VStr (js "ui"); VStr (js "x")] (or_introl eq_refl))).
  - exact (proj1 (proj2 (logging_silent
                    {| DEBUG := true; log_channels := [js "warn"];
                       console := None |}
                    [VStr (js "x")] (or_intror eq_refl)))).
Defined.

(** X6: on an enabled channel, a console without the method of the type
    makes the call raise a [TypeError]: the presence of the method is not
    tested. *)
Theorem logging_missing_method (env : surroundings) (channel : value)
    (rest : list value) (methods : list jstr) :
  console env = Some methods ->
  (logEnabledFor env channel = true -> ~ In (js "log") methods ->
   log env (channel :: rest) = Throw TypeError)
  /\ (logEnabledFor env (VStr (js "warn")) = true -> ~ In (js "warn") methods ->
      warn env rest = Throw TypeError)
  /\ (logEnabledFor env (VStr (js "error")) = true ->
      ~ In (js "error") methods ->
      error env rest = Throw TypeError).
Proof.
  intros Hc.
  assert (G : forall ch type,
             type <> [] -> logEnabledFor env ch = true -> ~ In type methods ->
             logToChannel env (ch :: VStr type :: rest) = Throw TypeError).
  { intros ch type Hne E Hin. unfold logToChannel. cbn [nth skipn].
    destruct type as [|c type]; [congruence|]. cbn [truthy to_string].
    assert (Hd : DEBUG env = true)
      by (unfold logEnabledFor in E; destruct (DEBUG env); congruence).
    rewrite Hd, E, Hc.
    destruct (existsb (jstr_eqb (c :: type)) methods) eqn:Ex; [|reflexivity].
    apply existsb_jstr_In in Ex. contradiction. }
  repeat split; intros E Hin; apply G; (discriminate || assumption).
Qed.

Lemma logging_missing_method_witness :
  warn {| DEBUG := true; log_channels := [js "warn"];
          console := Some [js "log"] |} [VStr (js "x")]
  = Throw TypeError.
Proof.
  refine (proj1 (proj2 (logging_missing_method
                          {| DEBUG := true; log_channels := [js "warn"];
                             console := Some [js "log"] |}
                          VUndefined [VStr (js "x")] [js "log"] eq_refl))
            eq_refl _).
  intros [H|[]]. discriminate.
Defined.

(** ** pop *)

Section PopFurther.

Context {A : Type} (strict_equals : A -> A -> bool).

(** An array with an element that satisfies [p] is cut at the last one. *)
Lemma last_match (p : A -> bool) (array : list A) :
  existsb p array = true ->
  exists pre x post,
    array = pre ++ x :: post
    /\ p x = true
    /\ (forall y, In y post -> p y = false).
Proof.
  induction array as [|a array IH]; [discriminate|].
  cbn [existsb]. intros H.
  destruct (existsb p array) eqn:E.
  - destruct (IH eq_refl) as (pre & x & post & -> & Hx & Hpost).
    exists (a :: pre), x, post. auto.
  - rewrite orb_false_r in H. exists [], a, array. repeat split; auto.
    intros y Hy. destruct (p y) eqn:Ey; [|reflexivity].
    assert (existsb p array = true) by (apply existsb_exists; eauto).
    congruence.
Qed.

Lemma splice_last_keeps_others (p : A -> bool) (array : list A) :
  filter (fun x => negb (p x)) (splice_last p array)
  = filter (fun x => negb (p x)) array
  /\ length (splice_last p array)
     = (length array - if existsb p array then 1 else 0)%nat.
Proof.
  destruct (existsb p array) eqn:E.
  - destruct (last_match p array E) as (pre & x & post & -> & Hx & Hpost).
    rewrite splice_last_at by assumption.
    rewrite !filter_app. cbn [filter]. rewrite Hx. cbn [negb].
    split; [reflexivity|]. rewrite !length_app. cbn [length]. lia.
  - rewrite splice_last_none; [split; [reflexivity|lia]|].
    intros x Hx. destruct (p x) eqn:Ex; [|reflexivity].
    assert (existsb p array = true) by (apply existsb_exists; eauto).
    congruence.
Qed.

(** X7: removing the value that was just pushed gives the array back,
    provided the value is equal to itself. *)
Theorem pop_after_push (array : list A) (value : A) :
  strict_equals value value = true ->
  pop strict_equals (array ++ [value]) value = array.
Proof.
  intros Hv. rewrite (pop_equal _ _ _ Hv).
  rewrite splice_last_at; [apply app_nil_r|assumption|].
  intros y [].
Qed.

(** X8: for a value that is equal to itself, [pop] keeps the elements that
    differ from the value, in their order, and shortens the array by one
    element exactly when it holds the value. For a value that is not equal
    to itself ([NaN]) it keeps the elements that are equal to themselves,
    in their order, and shortens the array by one element exactly when it
    holds an element that is not. *)
Theorem pop_keeps_others (array : list A) (value : A) :
  (strict_equals value value = true ->
   filter (fun x => negb (strict_equals x value))
     (pop strict_equals array value)
   = filter (fun x => negb (strict_equals x value)) array
   /\ length (pop strict_equals array value)
      = (length array
         - if existsb (fun x => strict_equals x value) array
           then 1 else 0)%nat)
  /\ (strict_equals value value = false ->
      filter (fun x => strict_equals x x) (pop strict_equals array value)
      = filter (fun x => strict_equals x x) array
      /\ length (pop strict_equals array value)
         = (length array
            - if existsb (fun x => negb (strict_equals x x)) array
              then 1 else 0)%nat).
Proof.
  split; intros Hv.
  - rewrite (pop_equal _ _ _ Hv).
    apply (splice_last_keeps_others (fun x => strict_equals x value)).
  - rewrite (pop_unequal _ _ _ Hv).
    destruct (splice_last_keeps_others
                (fun x => negb (strict_equals x x)) array) as [Hf Hl].
    split; [|exact Hl].
    rewrite (filter_ext (fun x => strict_equals x x)
               (fun x => negb (negb (strict_equals x x))))
      by (intros x; now rewrite negb_involutive).
    rewrite Hf. apply filter_ext. intros x. apply negb_involutive.
Qed.

End PopFurther.

Lemma pop_after_push_witness : pop Z.eqb ([4; 7; 4] ++ [7]) 7 = [4; 7; 4].
Proof. exact (pop_after_push Z.eqb [4; 7; 4] 7 eq_refl). Defined.

Lemma pop_keeps_others_witness :
  length (pop Z.eqb [1; 2; 1; 3] 1) = 3%nat
  /\ filter (fun x => element_equals x x)
       (pop element_equals [Num 1; NaN; Num 2] NaN)
     = [Num 1; Num 2].
Proof.
  split.
  - exact (proj2 (proj1 (pop_keeps_others Z.eqb [1; 2; 1; 3] 1) eq_refl)).
  - exact (proj1 (proj2 (pop_keeps_others element_equals
                           [Num 1; NaN; Num 2] NaN) eq_refl)).
Defined.

(** ** format *)

(** X9: a template in which no [%] is followed by a digit is returned as
    it is, whatever the other arguments. *)
Theorem format_without_token (s : jstr) (extra : list value) :
  text_ok s [] = true ->
  format (VStr s) extra = Ok (VStr s).
Proof.
  intros Hs. unfold format.
  pose proof (replace_tokens_text (VStr s :: extra) s [] Hs (length s)) as H.
  rewrite app_nil_r in H. rewrite H by lia.
  destruct (length s); simpl; now rewrite app_nil_r.
Qed.

Lemma format_without_token_witness :
  format (VStr (js "100% of %s")) [VStr (js "A")] = Ok (VStr (js "100% of %s")).
Proof.
  exact (format_without_token (js "100% of %s") [VStr (js "A")] eq_refl).
Defined.

(** ** capitalize *)




Example capitalize_example : capitalize (VStr (js "abc")) = js "Abc".
Proof. reflexivity. Qed.

(** ** getByPath *)

Lemma split_go_char_app (c : Z) (p : jstr) :
  forall (cur q : jstr) (fuel : nat),
    (length (p ++ c :: q) <= fuel)%nat ->
    split_go fuel [c] cur (p ++ c :: q)
    = split_go fuel [c] cur p ++ split_go fuel [c] [] q.
Proof.
  assert (Hsep : [c] <> []) by discriminate.
  induction p as [|x p IH]; intros cur q fuel Hf;
    (destruct fuel as [|fuel]; [simpl in Hf; lia|]);
    rewrite (split_go_fuel [c] (S fuel) Hsep fuel [] q)
      by (rewrite length_app in Hf; simpl in Hf; lia).
  - cbn [app split_go strip_prefix]. rewrite Z.eqb_refl. reflexivity.
  - cbn [app split_go strip_prefix]. simpl in Hf.
    destruct (c =? x).
    + rewrite IH by lia. reflexivity.
    + rewrite IH by lia. reflexivity.
Qed.

(** Splitting at a single character distributes over the joining of two
    strings with that character. *)
Lemma split_char_app (c : Z) (p q : jstr) :
  split [c] (p ++ c :: q) = split [c] p ++ split [c] q.
Proof.
  assert (Hsep : [c] <> []) by discriminate.
  unfold split. rewrite split_go_char_app by lia.
  f_equal; apply split_go_fuel; try assumption; rewrite ?length_app; simpl; lia.
Qed.

Lemma walk_app `{Prototypes} (keys1 keys2 : list jstr) :
  forall o,
  walk (keys1 ++ keys2) o
  = match walk keys1 o with
    | Some v => walk keys2 v
    | None => None
    end.
Proof.
  induction keys1 as [|k keys1 IH]; intros o; [reflexivity|].
  cbn [app walk]. destruct (truthy o) eqn:E.
  - destruct (get_prop o k); [apply IH|reflexivity].
  - destruct keys2; simpl; [reflexivity|now rewrite E].
Qed.

(** X11: with a separator of one character, looking up the path made of two
    paths joined by the separator is looking up the second path in what the
    first one gives; ['.'] is the separator when none is given. When the
    first path gives no value (it leaves the data values) the joined path
    gives none either. *)
Theorem getByPath_composes `{Prototypes} (o : value) (p q : jstr) (c : Z) :
  getByPath o (VStr (p ++ c :: q)) (VStr [c])
  = match getByPath o (VStr p) (VStr [c]) with
    | Some (Ok v) => getByPath v (VStr q) (VStr [c])
    | other => other
    end
  /\ getByPath o (VStr (p ++ js "." ++ q)) VUndefined
     = match getByPath o (VStr p) VUndefined with
       | Some (Ok v) => getByPath v (VStr q) VUndefined
       | other => other
       end.
Proof.
  unfold getByPath. cbn [truthy to_string]. split.
  - rewrite split_char_app, walk_app.
    now destruct (walk (split [c] p) o).
  - change (js "." ++ q) with (46 :: q). change (js ".") with [46].
    rewrite split_char_app, walk_app.
    now destruct (walk (split [46] p) o).
Qed.

(** ** uri2state *)

Lemma each_part_app (parts1 parts2 : list jstr) :
  forall res,
    each_part (parts1 ++ parts2) res
    = (res' <- each_part parts1 res ;; each_part parts2 res').
Proof.
  induction parts1 as [|part parts1 IH]; intros res; [reflexivity|].
  cbn [app each_part]. destruct part as [|c part]; [apply IH|].
  destruct (store_matches _ res) as [res'|e]; [apply IH|reflexivity].
Qed.

(** The part [k=v] is one assignment. *)
Lemma each_part_pair (k v : jstr) (res : obj) :
  k <> [] ->
  forallb (fun x => negb (x =? 61)) k = true ->
  forallb (fun x => negb (is_line_terminator x)) v = true ->
  each_part [k ++ 61 :: v] res
  = (d <- decodeURIComponent v ;; Ok (obj_assign k (VStr d) res)).
Proof.
  intros Hne Hk Hv. cbn [each_part].
  rewrite name_value_matches_pair by (assumption || lia).
  destruct k as [|c k]; [congruence|]. cbn [app store_matches].
  destruct (decodeURIComponent v); reflexivity.
Qed.

(** What [uri2state] does of a string, the leading [?] apart. *)
Lemma uri2state_parts (u : jstr) :
  uri2state (VStr u)
  = (res <- each_part
              (split (js "&")
                 match u with
                 | c :: u' => if c =? 63 then u' else u
                 | [] => u
                 end) [] ;;
     Ok (VObj res)).
Proof.
  destruct u as [|c u]; reflexivity.
Qed.

(** X12: a single [?] at the head of the URI is ignored. *)
Theorem uri2state_leading_mark (u : jstr) :
  match u with c :: _ => negb (c =? 63) | [] => true end = true ->
  uri2state (VStr (63 :: u)) = uri2state (VStr u).
Proof.
  intros Hu. rewrite (uri2state_parts u). cbn [uri2state truthy negb].
  rewrite Z.eqb_refl. destruct u as [|c u]; [reflexivity|].
  apply negb_true_iff in Hu. now rewrite Hu.
Qed.

Lemma uri2state_leading_mark_witness :
  uri2state (VStr (js "?a=1&b=2")) = uri2state (VStr (js "a=1&b=2")).
Proof. exact (uri2state_leading_mark (js "a=1&b=2") eq_refl). Defined.

Lemma plain_pair_facts (k v : jstr) :
  plain_pair k v = true ->
  k <> []
  /\ forallb (fun x => negb (x =? 61)) k = true
  /\ forallb (fun x => negb (is_line_terminator x)) v = true
  /\ forallb (fun c => negb (c =? 38)) (k ++ 61 :: v) = true.
Proof.
  unfold plain_pair. intros H.
  apply andb_true_iff in H as [H Hv]. apply andb_true_iff in H as [Hne Hk].
  assert (Hk' : forallb (fun x => negb (x =? 61)) k = true
                /\ forallb (fun c => negb (c =? 38)) k = true).
  { clear - Hk. induction k as [|c k IH]; [auto|].
    cbn [forallb] in *. apply andb_true_iff in Hk as [Hc Hk].
    apply andb_true_iff in Hc as [Hc1 Hc2].
    destruct (IH Hk) as [IH1 IH2]. now rewrite Hc1, Hc2, IH1, IH2. }
  assert (Hv' : forallb (fun x => negb (is_line_terminator x)) v = true
                /\ forallb (fun c => negb (c =? 38)) v = true).
  { clear - Hv. induction v as [|c v IH]; [auto|].
    cbn [forallb] in *. apply andb_true_iff in Hv as [Hc Hv].
    apply andb_true_iff in Hc as [Hc1 Hc2].
    destruct (IH Hv) as [IH1 IH2]. now rewrite Hc1, Hc2, IH1, IH2. }
  destruct Hk' as [Hk1 Hk2]. destruct Hv' as [Hv1 Hv2].
  repeat split; try assumption.
  - destruct k; [discriminate|discriminate].
  - rewrite forallb_app. cbn [forallb]. now rewrite Hk2, Hv2.
Qed.

Lemma split_amp_piece (p : jstr) :
  forallb (fun c => negb (c =? 38)) p = true -> split (js "&") p = [p].
Proof.
  intros Hp. change (js "&") with [38]. unfold split.
  now rewrite split_go_piece.
Qed.

(** X13: a parameter [k=v] added at the end of a URI is assigned last, over
    what the URI gave before: its value is decoded and replaces an earlier
    value of the same name; a URI that raises still raises. *)
Theorem uri2state_append (u k v : jstr) :
  plain_pair k v = true ->
  (forall res,
      uri2state (VStr u) = Ok (VObj res) ->
      uri2state (VStr (u ++ js "&" ++ k ++ js "=" ++ v))
      = (d <- decodeURIComponent v ;; Ok (VObj (obj_assign k (VStr d) res))))
  /\ (forall e,
         uri2state (VStr u) = Throw e ->
         uri2state (VStr (u ++ js "&" ++ k ++ js "=" ++ v)) = Throw e).
Proof.
  intros Hkv.
  destruct (plain_pair_facts k v Hkv) as (Hne & Hk & Hv & Hamp).
  change (js "&" ++ k ++ js "=" ++ v) with (38 :: k ++ 61 :: v).
  assert (G : forall w,
             each_part (split (js "&") (w ++ 38 :: k ++ 61 :: v)) []
             = (res <- each_part (split (js "&") w) [] ;;
                d <- decodeURIComponent v ;; Ok (obj_assign k (VStr d) res))).
  { intros w. change (js "&") with [38].
    rewrite split_char_app, each_part_app.
    change [38] with (js "&"). rewrite (split_amp_piece _ Hamp).
    destruct (each_part (split (js "&") w) []) as [res|e]; [|reflexivity].
    cbn [bind]. now apply each_part_pair. }
  assert (U : uri2state (VStr (u ++ 38 :: k ++ 61 :: v))
              = (res <- each_part
                          (split (js "&")
                             match u with
                             | c :: u' => if c =? 63 then u' else u
                             | [] => u
                             end) [] ;;
                 d <- decodeURIComponent v ;;
                 Ok (VObj (obj_assign k (VStr d) res)))).
  { rewrite uri2state_parts. destruct u as [|c u].
    - cbn [app]. change (38 =? 63) with false. cbv iota.
      pose proof (G []) as G0. cbn [app] in G0. rewrite G0.
      destruct (each_part (split (js "&") []) []) as [res|e]; [|reflexivity].
      cbn [bind]. destruct (decodeURIComponent v); reflexivity.
    - cbn [app]. destruct (c =? 63).
      + rewrite (G u).
        destruct (each_part (split (js "&") u) []) as [res|e]; [|reflexivity].
        cbn [bind]. destruct (decodeURIComponent v); reflexivity.
      + change (c :: u ++ 38 :: k ++ 61 :: v)
          with ((c :: u) ++ 38 :: k ++ 61 :: v).
        rewrite (G (c :: u)).
        destruct (each_part (split (js "&") (c :: u)) []) as [res|e];
          [|reflexivity].
        cbn [bind]. destruct (decodeURIComponent v); reflexivity. }
  rewrite U. rewrite (uri2state_parts u).
  split.
  - intros res H.
    destruct (each_part _ []) as [res'|e]; [|discriminate].
    cbn [bind] in *. now inversion H.
  - intros e H.
    destruct (each_part _ []) as [res'|e']; [discriminate|].
    cbn [bind] in *. now inversion H.
Qed.

Lemma uri2state_append_witness :
  uri2state (VStr (js "a=1&b=2" ++ js "&" ++ js "a" ++ js "=" ++ js "3%21"))
  = Ok (VObj [(js "a", VStr (js "3!")); (js "b", VStr (js "2"))]).
Proof.
  exact (proj1 (uri2state_append (js "a=1&b=2") (js "a") (js "3%21") eq_refl)
           [(js "a", VStr (js "1")); (js "b", VStr (js "2"))] eq_refl).
Defined.

(** X14: a URI made of one parameter [k=v] gives the state with the key
    [k] and the decoded value, and raises a [URIError] when the value
    cannot be decoded; a parameter without [=] has the empty string for
    value. *)
Theorem uri2state_single (k v : jstr) :
  plain_pair k v = true ->
  match k with c :: _ => negb (c =? 63) | [] => true end = true ->
  uri2state (VStr (k ++ js "=" ++ v))
  = (d <- decodeURIComponent v ;; Ok (VObj (obj_assign k (VStr d) [])))
  /\ uri2state (VStr k) = Ok (VObj (obj_assign k (VStr []) [])).
Proof.
  intros Hkv Hfirst.
  destruct (plain_pair_facts k v Hkv) as (Hne & Hk & Hv & Hamp).
  destruct k as [|c k]; [congruence|].
  apply negb_true_iff in Hfirst.
  change (js "=" ++ v) with (61 :: v).
  rewrite !uri2state_parts. cbn [app]. rewrite Hfirst.
  change (c :: k ++ 61 :: v) with ((c :: k) ++ 61 :: v). split.
  - rewrite (split_amp_piece _ Hamp), each_part_pair by assumption.
    destruct (decodeURIComponent v); reflexivity.
  - assert (Hkamp : forallb (fun x => negb (x =? 38)) (c :: k) = true).
    { rewrite forallb_app in Hamp. now apply andb_true_iff in Hamp as [H _]. }
    rewrite (split_amp_piece _ Hkamp). cbn [each_part length].
    cbn [name_value_matches].
    assert (Hc : (c =? 61) = false).
    { cbn [forallb] in Hk. apply andb_true_iff in Hk as [Hk _].
      now apply negb_true_iff. }
    rewrite Hc. rewrite <- (app_nil_r (c :: k)) at 1.
    rewrite span_app by (assumption || reflexivity).
    cbn [span]. destruct (length k); reflexivity.
Qed.

Lemma uri2state_single_witness :
  uri2state (VStr (js "q" ++ js "=" ++ js "100%"))
  = Throw URIError
  /\ uri2state (VStr (js "q")) = Ok (VObj [(js "q", VStr [])]).
Proof.
  exact (uri2state_single (js "q") (js "100%") eq_refl eq_refl).
Defined.

Lemma string_values_obj_set (k s : jstr) (o : obj) :
  string_values o = true -> string_values (obj_set k (VStr s) o) = true.
Proof.
  unfold string_values, obj_set. intros Ho.
  destruct (has_own k o).
  - induction o as [|[k0 v0] o IH]; [reflexivity|].
    cbn [forallb snd] in Ho. apply andb_true_iff in Ho as [H0 Ho].
    simpl. destruct (jstr_eqb k0 k); simpl; [exact Ho|].
    now rewrite H0, IH.
  - destruct (array_index k) as [n|].
    + induction o as [|[k0 v0] o IH]; [reflexivity|].
      cbn [forallb snd] in Ho. apply andb_true_iff in Ho as [H0 Ho].
      simpl. destruct (array_index k0) as [m|]; [destruct (m <? n)|];
        simpl; rewrite H0; simpl; auto.
    + rewrite forallb_app, Ho. reflexivity.
Qed.

Lemma store_matches_invariant (ms : list (jstr * jstr)) :
  forall res res',
    store_matches ms res = Ok res' ->
    ordinary res = true -> string_values res = true ->
    ordinary res' = true /\ string_values res' = true.
Proof.
  induction ms as [|[name v] ms IH]; intros res res' H Ho Hs; simpl in H.
  - inversion H; subst. auto.
  - destruct (decodeURIComponent v) as [d|]; [|discriminate]. simpl in H.
    eapply IH; [exact H| |].
    + now apply ordinary_obj_assign.
    + unfold obj_assign. destruct (jstr_eqb name (js "__proto__"));
        [assumption|now apply string_values_obj_set].
Qed.

Lemma each_part_invariant (parts : list jstr) :
  forall res res',
    each_part parts res = Ok res' ->
    ordinary res = true -> string_values res = true ->
    ordinary res' = true /\ string_values res' = true.
Proof.
  induction parts as [|part parts IH]; intros res res' H Ho Hs; simpl in H.
  - inversion H; subst. auto.
  - destruct part as [|c part]; [now apply (IH res)|].
    destruct (store_matches _ res) as [res1|] eqn:E; [|discriminate].
    simpl in H. destruct (store_matches_invariant _ _ _ E Ho Hs).
    now apply (IH res1).
Qed.

(** X15: what [uri2state] returns is an object whose values are all
    strings, with no two properties of the same name and without an own
    property [__proto__]. *)
Theorem uri2state_result (uri st : value) :
  uri2state uri = Ok st ->
  exists res,
    st = VObj res /\ ordinary res = true /\ string_values res = true.
Proof.
  unfold uri2state. destruct (negb (truthy uri)).
  - intros H. inversion H. now exists [].
  - destruct uri; try discriminate.
    destruct (each_part _ []) as [res|] eqn:E; [|discriminate].
    intros H. inversion H. exists res.
    destruct (each_part_invariant _ _ _ E eq_refl eq_refl). auto.
Qed.

Lemma uri2state_result_witness :
  exists res,
    VObj [(js "a", VStr (js "2"))] = VObj res
    /\ ordinary res = true /\ string_values res = true.
Proof.
  exact (uri2state_result (VStr (js "a=1&__proto__=x&a=2")) _ eq_refl).
Defined.

(** ** state2uri *)





(** ** The round trip of any values *)









(** ** extendQuery *)

Lemma obj_delete_absent (k : jstr) (o : obj) :
  has_own k o = false -> obj_delete k o = o.
Proof.
  unfold obj_delete. induction o as [|[k0 v0] o IH]; intros H; [reflexivity|].
  apply has_own_cons_false in H as [E H]. cbn [filter fst]. rewrite E.
  cbn [negb]. now rewrite IH.
Qed.

Lemma no_mark_parts (url : jstr) :
  forallb (fun c => negb (c =? 63)) url = true ->
  before_first 63 url = url /\ after_first 63 url = [].
Proof.
  intros H. unfold before_first, after_first.
  rewrite <- (app_nil_r url) at 1 3.
  rewrite span_app by (assumption || reflexivity). auto.
Qed.

Lemma extend_nothing (old : obj) : extend old [] = old.
Proof. reflexivity. Qed.

Section ExtendQueryFurther.

Context `{QueryString}.

(** X18: forcing a key that the old parameters do not have changes
    nothing. *)
Theorem extendQuery_forced_absent (newUrl : option jstr) (oldUrl : url_arg)
    (k : jstr) (po : obj) :
  old_parameters oldUrl = Ok po ->
  has_own k po = false ->
  extendQuery newUrl oldUrl (Some k) = extendQuery newUrl oldUrl None.
Proof.
  intros Hpo Hk. unfold extendQuery.
  destruct (isEmpty oldUrl && isEmpty (Url match newUrl with
                                           | Some s => s
                                           | None => []
                                           end)); [reflexivity|].
  destruct (isEmpty oldUrl); [reflexivity|].
  destruct (parse_query _) as [pn|e]; [|reflexivity].
  assert (Hparsed :
    match oldUrl with
    | Missing => Ok []
    | Url s => parse_query (query_of s)
    | Params o => Ok o
    end = Ok po).
  { destruct oldUrl as [|s|o]; try exact Hpo.
    simpl in Hpo. now rewrite query_of_after_first. }
  rewrite Hparsed. destruct k as [|c k]; [reflexivity|].
  now rewrite (obj_delete_absent _ _ Hk).
Qed.

(** X19: a new URL without [?] takes over the parameters of an old URL that
    has some: the result is the new URL, [?] and the serialization of the
    old parameters. *)
Theorem extendQuery_inherits (newUrl : jstr) (oldUrl : url_arg) (po : obj) :
  forallb (fun c => negb (c =? 63)) newUrl = true ->
  old_parameters oldUrl = Ok po ->
  po <> [] ->
  fst (extendQuery (Some newUrl) oldUrl None)
  = (q <- qs_stringify po ;; Ok (newUrl ++ 63 :: q)).
Proof.
  intros Hn Hpo Hne. destruct (no_mark_parts newUrl Hn) as [Hb Ha].
  assert (Hold : isEmpty oldUrl = false).
  { destruct oldUrl as [|[|c s]|[|kv o]]; try reflexivity;
      simpl in Hpo; inversion Hpo; congruence. }
  rewrite (extendQuery_not_empty newUrl oldUrl None [] po);
    [|assumption|now rewrite Ha|assumption].
  cbn [fst]. rewrite extend_nothing, Hb.
  destruct po; [congruence|reflexivity].
Qed.

(** X20: when neither URL has parameters and the old one is not empty, the
    result is the new URL up to its first [?]: an empty query is dropped
    with its [?]. *)
Theorem extendQuery_no_parameters (newUrl : jstr) (oldUrl : url_arg)
    (forcedRenewParam : option jstr) :
  isEmpty oldUrl = false ->
  parse_query (after_first 63 newUrl) = Ok [] ->
  old_parameters oldUrl = Ok [] ->
  extendQuery (Some newUrl) oldUrl forcedRenewParam
  = (Ok (before_first 63 newUrl), oldUrl).
Proof.
  intros Hold Hpn Hpo.
  rewrite (extendQuery_not_empty newUrl oldUrl forcedRenewParam [] [])
    by assumption.
  assert (Hsame : match oldUrl with
                  | Params _ => Params []
                  | _ => oldUrl
                  end = oldUrl).
  { destruct oldUrl as [|s|o]; try reflexivity.
    simpl in Hpo. now inversion Hpo. }
  destruct forcedRenewParam as [[|c k]|]; cbn; now rewrite Hsame.
Qed.

(** X21: when the query of the new URL cannot be parsed, or the one of the
    old URL, [extendQuery] raises what [querystring.parse] raises and the
    argument [oldUrl] is as it was. *)
Theorem extendQuery_parse_raises (newUrl : jstr) (oldUrl : url_arg)
    (forcedRenewParam : option jstr) (e : exn) :
  isEmpty oldUrl = false ->
  parse_query (after_first 63 newUrl) = Throw e
  \/ (exists pn, parse_query (after_first 63 newUrl) = Ok pn)
     /\ old_parameters oldUrl = Throw e ->
  extendQuery (Some newUrl) oldUrl forcedRenewParam = (Throw e, oldUrl).
Proof.
  intros Hold Hraise. unfold extendQuery. rewrite Hold. cbn [andb].
  rewrite query_of_after_first.
  destruct Hraise as [Hn|[[pn Hn] Ho]]; rewrite Hn; [reflexivity|].
  destruct oldUrl as [|s|o]; try discriminate.
  simpl in Ho. now rewrite query_of_after_first, Ho.
Qed.

End ExtendQueryFurther.

Lemma extendQuery_forced_absent_witness :
  extendQuery (Some (js "/path?b=2")) (Url (js "/old?a=1")) (Some (js "c"))
  = extendQuery (Some (js "/path?b=2")) (Url (js "/old?a=1")) None.
Proof.
  exact (extendQuery_forced_absent (Some (js "/path?b=2")) (Url (js "/old?a=1"))
           (js "c") [(js "a", VStr (js "1"))] eq_refl eq_refl).
Defined.

Lemma extendQuery_inherits_witness :
  fst (extendQuery (Some (js "/path")) (Url (js "/old?a=1&b=x%20y")) None)
  = Ok (js "/path?a=1&b=x%20y").
Proof.
  refine (extendQuery_inherits (js "/path") (Url (js "/old?a=1&b=x%20y"))
            [(js "a", VStr (js "1")); (js "b", VStr (js "x y"))]
            eq_refl eq_refl _).
  discriminate.
Defined.

Lemma extendQuery_no_parameters_witness :
  extendQuery (Some (js "/path?")) (Url (js "/old")) None
  = (Ok (js "/path"), Url (js "/old")).
Proof.
  exact (extendQuery_no_parameters (js "/path?") (Url (js "/old")) None
           eq_refl eq_refl eq_refl).
Defined.

Lemma extendQuery_parse_raises_witness :
  extendQuery (Some (js "/path?a=%")) (Params [(js "b", VStr (js "1"))]) None
  = (Throw URIError, Params [(js "b", VStr (js "1"))]).
Proof.
  exact (extendQuery_parse_raises (js "/path?a=%")
           (Params [(js "b", VStr (js "1"))]) None URIError
           eq_refl (or_introl eq_refl)).
Defined.

(** ** uri2state without escapes *)

Lemma decode_go_no_percent (s : jstr) :
  no_percent s = true ->
  forall fuel, (length s <= fuel)%nat -> decode_go fuel s = Ok s.
Proof.
  unfold no_percent. induction s as [|c s IH]; intros Hs fuel Hf.
  - now destruct fuel.
  - cbn [forallb] in Hs. apply andb_true_iff in Hs as [Hc Hs].
    apply negb_true_iff, Z.eqb_neq in Hc.
    rewrite decode_go_plain by assumption.
    rewrite IH by (assumption || simpl in Hf; lia). reflexivity.
Qed.

Lemma span_no_percent (q : Z -> bool) (l : jstr) :
  no_percent l = true ->
  no_percent (fst (span q l)) = true /\ no_percent (snd (span q l)) = true.
Proof.
  unfold no_percent. induction l as [|x l IH]; intros H; [auto|].
  cbn [forallb] in H. apply andb_true_iff in H as [Hx H].
  cbn [span]. destruct (q x).
  - destruct (IH H) as [IH1 IH2]. destruct (span q l) as [a b].
    cbn [fst snd forallb] in *. now rewrite Hx, IH1, IH2.
  - cbn [fst snd forallb]. now rewrite Hx, H.
Qed.

Lemma name_value_matches_no_percent (fuel : nat) :
  forall s, no_percent s = true ->
    Forall (fun nv => no_percent (snd nv) = true) (name_value_matches fuel s).
Proof.
  induction fuel as [|fuel IH]; intros s Hs.
  - destruct s; constructor.
  - destruct s as [|c s]; [constructor|].
    cbn [name_value_matches]. destruct (c =? 61).
    + apply IH. unfold no_percent in *. cbn [forallb] in Hs.
      now apply andb_true_iff in Hs as [_ Hs].
    + pose proof (span_no_percent (fun x => negb (x =? 61)) (c :: s) Hs)
        as [_ H1].
      destruct (span (fun x => negb (x =? 61)) (c :: s)) as [name r1].
      cbn [snd] in H1.
      assert (H2 : no_percent match r1 with
                              | [] => []
                              | e :: r => if e =? 61 then r else r1
                              end = true).
      { destruct r1 as [|e r]; [reflexivity|].
        destruct (e =? 61); [|assumption].
        unfold no_percent in *. cbn [forallb] in H1.
        now apply andb_true_iff in H1 as [_ H1]. }
      pose proof (span_no_percent (fun x => negb (is_line_terminator x)) _ H2)
        as [H3 H4].
      destruct (span (fun x => negb (is_line_terminator x)) _) as [v r3].
      cbn [fst snd] in *. constructor; [exact H3|now apply IH].
Qed.

Lemma store_matches_no_percent (ms : list (jstr * jstr)) :
  Forall (fun nv => no_percent (snd nv) = true) ms ->
  forall res, exists res', store_matches ms res = Ok res'.
Proof.
  induction 1 as [|[name v] ms Hv _ IH]; intros res; [now eexists|].
  cbn [store_matches]. unfold decodeURIComponent.
  rewrite decode_go_no_percent by (exact Hv || lia). cbn [bind]. apply IH.
Qed.

Lemma split_go_no_percent (sep : jstr) (fuel : nat) :
  forall cur s,
    no_percent cur = true -> no_percent s = true ->
    Forall (fun p => no_percent p = true) (split_go fuel sep cur s).
Proof.
  assert (Hstrip : forall p s rest,
             strip_prefix p s = Some rest -> no_percent s = true ->
             no_percent rest = true).
  { induction p as [|x p IHp]; intros s rest E Hs; simpl in E.
    - now inversion E; subst.
    - destruct s as [|y s]; [discriminate|].
      destruct (x =? y); [|discriminate].
      unfold no_percent in Hs. cbn [forallb] in Hs.
      apply andb_true_iff in Hs as [_ Hs]. now apply (IHp s). }
  induction fuel as [|fuel IH]; intros cur s Hcur Hs.
  - destruct s; repeat constructor; assumption.
  - destruct s as [|c s]; [repeat constructor; assumption|].
    cbn [split_go].
    destruct (strip_prefix sep (c :: s)) as [rest|] eqn:E.
    + constructor; [assumption|].
      apply IH; [reflexivity|now apply (Hstrip sep (c :: s))].
    + unfold no_percent in Hs. cbn [forallb] in Hs.
      apply andb_true_iff in Hs as [Hc Hs].
      apply IH; [|assumption].
      unfold no_percent. rewrite forallb_app. cbn [forallb].
      unfold no_percent in Hcur. now rewrite Hcur, Hc.
Qed.

Lemma each_part_no_percent (parts : list jstr) :
  Forall (fun p => no_percent p = true) parts ->
  forall res, exists res', each_part parts res = Ok res'.
Proof.
  induction 1 as [|part parts Hp _ IH]; intros res; [now eexists|].
  cbn [each_part]. destruct part as [|c part]; [apply IH|].
  destruct (store_matches_no_percent
              _ (name_value_matches_no_percent (length (c :: part)) _ Hp) res)
    as [res1 ->].
  cbn [bind]. apply IH.
Qed.

(** X22: only an escape can make [uri2state] raise: of a string without
    [%] it returns a state. *)
Theorem uri2state_without_escape (u : jstr) :
  no_percent u = true ->
  exists res, uri2state (VStr u) = Ok (VObj res).
Proof.
  intros Hu. rewrite uri2state_parts.
  assert (Hparts : Forall (fun p => no_percent p = true)
                     (split (js "&")
                        match u with
                        | c :: u' => if c =? 63 then u' else u
                        | [] => u
                        end)).
  { assert (Hu' : no_percent match u with
                             | c :: u' => if c =? 63 then u' else u
                             | [] => u
                             end = true).
    { destruct u as [|c u']; [reflexivity|].
      destruct (c =? 63); [|assumption].
      unfold no_percent in *. cbn [forallb] in Hu.
      now apply andb_true_iff in Hu as [_ Hu]. }
    change (js "&") with [38]. unfold split.
    now apply split_go_no_percent. }
  destruct (each_part_no_percent _ Hparts []) as [res ->].
  now exists res.
Qed.

Lemma uri2state_without_escape_witness :
  exists res, uri2state (VStr (js "?a=1&&b&=c==d")) = Ok (VObj res).
Proof.
  exact (uri2state_without_escape (js "?a=1&&b&=c==d") eq_refl).
Defined.
